(** * train_routes: shortest route between two stations

    A shallow embedding of [main.py] (classes [StationMap] and [Station],
    together with the two [heapq] functions the search calls) and the
    properties of the route finder proved over it.

    Conventions of the embedding.
    - A Python [Station] object lives in the dictionary [self.stations] of the
      [StationMap] that created it; [StationMap._add_station] is the only
      place where a [Station] is constructed and it creates one object per
      name.  A reference to a [Station] is therefore modelled by the key under
      which the object is stored, and reading a field of the object is a
      lookup in [stations].  The identity based [==], [in] and hashing of
      [Station] objects become equality of keys.
    - [dict]s whose iteration order the code observes ([Station.routes]) are
      association lists in insertion order; the others are [gmap]s and the
      [visited] set is a [gset].
    - [int | float] values ([math.inf] is the only float the code creates)
      are the type [num].
    - Exceptions are values of [exn]; a computation yields an [outcome].
      [while] loops are unrolled by a fuel argument and yield [NoFuel] when the
      fuel does not suffice. *)

From Stdlib Require Import ZArith Lia ZifyNat.
From stdpp Require Import gmap strings list fin_maps sorting pretty.

Open Scope Z_scope.
#[local] Set Warnings "-clear-no-such-hyp".

(** [lia] with division by a constant. *)
Ltac Zify.zify_post_hook ::= Z.to_euclidean_division_equations.

(** * The program *)

(** ** Python values and outcomes *)

(** [int | float]: an integer or [math.inf]. *)
Inductive num : Type :=
| Int (z : Z)
| Inf.

(** [a + w] for an [int | float] and an [int]. *)
Definition num_add (a : num) (w : Z) : num :=
  match a with
  | Int z => Int (z + w)
  | Inf => Inf
  end.

(** [a < b]. *)
Definition num_ltb (a b : num) : bool :=
  match a, b with
  | Int x, Int y => bool_decide (x < y)
  | Int _, Inf => true
  | Inf, _ => false
  end.

(** [a == b]. *)
Definition num_eqb (a b : num) : bool :=
  match a, b with
  | Int x, Int y => bool_decide (x = y)
  | Inf, Inf => true
  | _, _ => false
  end.

Inductive exn : Type :=
| DuplicateRouteError (origin_name destination_name : string)
| StationDoesNotExistError (station_name : string)
| KeyError (key : string)
| IndexError
| TypeError.

(** The message the exceptions of [main.py] are constructed with. *)
Definition message (e : exn) : option string :=
  match e with
  | DuplicateRouteError o d =>
      Some ("Route from " ++ o ++ " to " ++ d ++ " already exists.")%string
  | StationDoesNotExistError n => Some ("Station: '" ++ n ++ "' does not exist.")%string
  | KeyError _ | IndexError | TypeError => None
  end.

Inductive outcome (A : Type) : Type :=
| Ret (a : A)
| Raise (e : exn)
| NoFuel.
Arguments Ret {A} a.
Arguments Raise {A} e.
Arguments NoFuel {A}.

#[global] Instance outcome_ret : MRet outcome := λ A a, Ret a.
#[global] Instance outcome_bind : MBind outcome := λ A B f m,
  match m with
  | Ret a => f a
  | Raise e => Raise e
  | NoFuel => NoFuel
  end.

(** ** The classes *)

(** [class Station]: [self.name] and [self.routes], the latter keyed by
    references to stations, in insertion order. *)
Record Station : Type := {
  name : string;
  routes : list (string * Z)
}.

(** [class StationMap]. *)
Record StationMap : Type := {
  stations : gmap string Station
}.

(** [StationMap()]. *)
Definition StationMap_init : StationMap := {| stations := ∅ |}.

(** [Station(name)]. *)
Definition Station_init (name : string) : Station :=
  {| name := name; routes := [] |}.

(** Methods run on the object store: they take [self] and give back an outcome
    and the store they leave behind, also when they raise. *)
Definition M (A : Type) : Type := StationMap → outcome A * StationMap.

#[global] Instance M_ret : MRet M := λ A a self, (Ret a, self).
#[global] Instance M_bind : MBind M := λ A B f m self,
  match m self with
  | (Ret a, self') => f a self'
  | (Raise e, self') => (Raise e, self')
  | (NoFuel, self') => (NoFuel, self')
  end.

(** [self], read from the store as it is when the step runs. *)
Definition get_self : M StationMap := λ self, (Ret self, self).

(** A step on local objects only (the queue, [visited], [dist], [prev]), or a
    [return] or [raise]: the store plays no part in it. *)
Definition local {A : Type} (r : outcome A) : M A := λ self, (r, self).

(** [d[k]] on a dictionary. *)
Definition dict_get {V : Type} (d : gmap string V) (k : string) : outcome V :=
  match d !! k with
  | Some v => Ret v
  | None => Raise (KeyError k)
  end.

(** [l[i]], [l[i] = x] and [l.pop()] on a list. *)
Definition list_get {A : Type} (l : list A) (i : nat) : outcome A :=
  match l !! i with
  | Some x => Ret x
  | None => Raise IndexError
  end.

Definition list_set {A : Type} (l : list A) (i : nat) (x : A) : outcome (list A) :=
  if bool_decide (i < length l)%nat then Ret (<[i := x]> l) else Raise IndexError.

Definition list_pop {A : Type} (l : list A) : outcome (A * list A) :=
  match last l with
  | Some x => Ret (x, take (length l - 1) l)
  | None => Raise IndexError
  end.

(** [StationMap._add_station]. *)
Definition _add_station (station_name : string) : M unit := λ self,
  if bool_decide (station_name ∉ dom (stations self))
  then (Ret (), {| stations := <[station_name := Station_init station_name]> (stations self) |})
  else (Ret (), self).

(** [Station.add_route], called on the station stored under [self_ref] with the
    station stored under [destination_ref]. *)
Definition Station_add_route (self_ref destination_ref : string) (distance : Z) : M unit :=
  λ sm,
  match stations sm !! self_ref, stations sm !! destination_ref with
  | Some self, Some destination =>
      if bool_decide (destination_ref ∈ (routes self).*1)
      then (Raise (DuplicateRouteError (name self) (name destination)), sm)
      else (Ret (),
            {| stations :=
                 <[self_ref := {| name := name self;
                                  routes := routes self ++ [(destination_ref, distance)] |}]>
                   (stations sm) |})
  | None, _ => (Raise (KeyError self_ref), sm)
  | _, None => (Raise (KeyError destination_ref), sm)
  end.

(** [StationMap.add_route]. *)
Definition add_route (origin_name destination_name : string) (distance : Z) : M unit :=
  _add_station origin_name ;;
  _add_station destination_name ;;
  Station_add_route origin_name destination_name distance.

(** ** Ordering of heap entries *)

(** A heap entry [(distance, station)]. *)
Abbreviation entry := (num * string)%type.

(** [Station] inherits [__lt__] from [object], which answers
    [NotImplemented] (here [None]). *)
Definition Station__lt__ (self other : string) : option bool := None.

(** [Station.__gt__]. *)
Definition Station__gt__ (self other : string) : option bool := Some false.

(** [a < b] on two stations: [a.__lt__(b)], then the reflected
    [b.__gt__(a)], then [TypeError]. *)
Definition station_lt (a b : string) : outcome bool :=
  match Station__lt__ a b with
  | Some r => Ret r
  | None =>
      match Station__gt__ b a with
      | Some r => Ret r
      | None => Raise TypeError
      end
  end.

(** [a < b] on two entries: tuples compare at the first component where they
    are not [==]; tuples of the same length that are [==] everywhere are not
    [<]. *)
Definition entry_lt (a b : entry) : outcome bool :=
  if num_eqb a.1 b.1
  then if bool_decide (a.2 = b.2) then Ret false else station_lt a.2 b.2
  else Ret (num_ltb a.1 b.1).

(** ** heapq *)

(** [heappush] and [heappop] with [_siftdown] and [_siftup], as the standard
    library defines them on a list. *)

(** [while pos > startpos] of [_siftdown]; [pos] is at least halved by every
    iteration, so [pos] iterations are never used up. *)
Fixpoint _siftdown_loop (n : nat) (heap : list entry) (newitem : entry)
    (startpos pos : nat) : outcome (list entry) :=
  if bool_decide (startpos < pos)%nat then
    match n with
    | O => NoFuel
    | S n =>
        let parentpos := Nat.shiftr (pos - 1) 1 in
        parent ← list_get heap parentpos;
        b ← entry_lt newitem parent;
        if b : bool then
          heap ← list_set heap pos parent;
          _siftdown_loop n heap newitem startpos parentpos
        else list_set heap pos newitem
    end
  else list_set heap pos newitem.

Definition _siftdown (heap : list entry) (startpos pos : nat) : outcome (list entry) :=
  newitem ← list_get heap pos;
  _siftdown_loop pos heap newitem startpos pos.

(** [while childpos < endpos] of [_siftup]; [pos] grows with every iteration,
    so [endpos] iterations are never used up. *)
Fixpoint _siftup_loop (n : nat) (heap : list entry) (endpos pos : nat)
    : outcome (list entry * nat) :=
  let childpos := (2 * pos + 1)%nat in
  if bool_decide (childpos < endpos)%nat then
    match n with
    | O => NoFuel
    | S n =>
        let rightpos := (childpos + 1)%nat in
        childpos ←
          (if bool_decide (rightpos < endpos)%nat then
             l ← list_get heap childpos;
             r ← list_get heap rightpos;
             b ← entry_lt l r;
             Ret (if negb b then rightpos else childpos)
           else Ret childpos);
        c ← list_get heap childpos;
        heap ← list_set heap pos c;
        _siftup_loop n heap endpos childpos
    end
  else Ret (heap, pos).

Definition _siftup (heap : list entry) (pos : nat) : outcome (list entry) :=
  let endpos := length heap in
  let startpos := pos in
  newitem ← list_get heap pos;
  '(heap, pos) ← _siftup_loop endpos heap endpos pos;
  heap ← list_set heap pos newitem;
  _siftdown heap startpos pos.

Definition heappush (heap : list entry) (item : entry) : outcome (list entry) :=
  let heap := heap ++ [item] in
  _siftdown heap 0 (length heap - 1).

Definition heappop (heap : list entry) : outcome (entry * list entry) :=
  '(lastelt, heap) ← list_pop heap;
  match heap with
  | _ :: _ =>
      returnitem ← list_get heap 0;
      heap ← list_set heap 0 lastelt;
      heap ← _siftup heap 0;
      Ret (returnitem, heap)
  | [] => Ret (lastelt, heap)
  end.

(** ** The search *)

(** The local variables of [find_shortest_route]. *)
Record locals : Type := {
  unvisited_stations : list entry;
  visited : gset string;
  dist : gmap string num;
  prev : gmap string string
}.

(** [StationMap._count_stops]. *)
Fixpoint _count_stops (fuel : nat) (destination origin : string)
    (previous_stations : gmap string string) (stops : nat) : outcome nat :=
  p ← dict_get previous_stations destination;
  if bool_decide (p ≠ origin) then
    match fuel with
    | O => NoFuel
    | S fuel => _count_stops fuel p origin previous_stations (stops + 1)
    end
  else Ret stops.

(** One turn of [for connected_station in current_station.routes]. *)
Definition relax (current_station : string) (l : locals) (route : string * Z)
    : outcome locals :=
  let connected_station := route.1 in
  if bool_decide (connected_station ∉ visited l) then
    d ← dict_get (dist l) current_station;
    let route_total := num_add d route.2 in
    dc ← dict_get (dist l) connected_station;
    if num_ltb route_total dc then
      heap ← heappush (unvisited_stations l) (route_total, connected_station);
      Ret {| unvisited_stations := heap;
             visited := visited l;
             dist := <[connected_station := route_total]> (dist l);
             prev := <[connected_station := current_station]> (prev l) |}
    else Ret l
  else Ret l.

Fixpoint for_routes (current_station : string) (rs : list (string * Z)) (l : locals)
    : outcome locals :=
  match rs with
  | [] => Ret l
  | r :: rs => l ← relax current_station l r; for_routes current_station rs l
  end.

(** [while len(unvisited_stations) > 0] with what follows it.  The loop runs
    on the store: [current_station.routes] is read from it in every turn. *)
Fixpoint search (origin destination : string) (fuel : nat) (l : locals)
    : M (num * option nat) :=
  match unvisited_stations l with
  | [] => local (Ret (Inf, None))
  | _ :: _ =>
      match fuel with
      | O => local NoFuel
      | S fuel =>
          '(item, heap) ← local (heappop (unvisited_stations l));
          let current_station := item.2 in
          if bool_decide (current_station = destination) then
            d ← local (dict_get (dist l) current_station);
            stops ← local (_count_stops fuel current_station origin (prev l) 0);
            local (Ret (d, Some stops))
          else
            self ← get_self;
            s ← local (dict_get (stations self) current_station);
            l ← local (for_routes current_station (routes s)
                         {| unvisited_stations := heap; visited := visited l;
                            dist := dist l; prev := prev l |});
            search origin destination fuel
              {| unvisited_stations := unvisited_stations l;
                 visited := {[current_station]} ∪ visited l;
                 dist := dist l; prev := prev l |}
      end
  end.

(** [dist] after the initialising [for station in self.stations.values()]. *)
Definition initial_dist (self : StationMap) (origin : string) : gmap string num :=
  map_imap (λ station _, Some (if bool_decide (station = origin) then Int 0 else Inf))
    (stations self).

(** [StationMap.find_shortest_route].  Every use of [self.stations] reads the
    store anew. *)
Definition find_shortest_route (fuel : nat) (origin_name destination_name : string)
    : M (num * option nat) :=
  self ← get_self;
  if bool_decide (origin_name ∉ dom (stations self))
  then local (Raise (StationDoesNotExistError origin_name))
  else
    self ← get_self;
    if bool_decide (destination_name ∉ dom (stations self))
    then local (Raise (StationDoesNotExistError destination_name))
    else if bool_decide (origin_name = destination_name)
    then local (Ret (Int 0, Some 0%nat))
    else
      let origin := origin_name in
      let destination := destination_name in
      self ← get_self;
      let dist := initial_dist self origin in
      heap ← local (heappush [] (Int 0, origin));
      search origin destination fuel
        {| unvisited_stations := heap; visited := ∅;
           dist := dist; prev := ∅ |}.

(** The loop of [parse_routes] over rows that are already parsed: the first
    [DuplicateRouteError] ends the load. *)
Fixpoint add_routes (rows : list (string * string * Z)) : M unit :=
  match rows with
  | [] => mret ()
  | (origin_name, destination_name, distance) :: rows =>
      add_route origin_name destination_name distance ;; add_routes rows
  end.

(** ** The loader *)

(** [RouteParsingError(message, line).message]; [if line] holds for a line
    number other than [None] and [0]. *)
Definition RouteParsingError_message (message : string) (line : option nat) : string :=
  let preface := "Route parsing failed"%string in
  match line with
  | Some (S n) => (preface ++ " on line " ++ pretty (S n) ++ ": " ++ message)%string
  | Some O | None => (preface ++ ": " ++ message)%string
  end.

(** What [csv.reader] yields for a record of the file: its fields, with
    [reader.line_num] once the record is read. *)
Record csv_row : Type := {
  line_num : nat;
  fields : list string
}.

(** An exception that [open] or the csv reader raises while the file is read:
    an [OSError], with its text, or one of another class
    ([UnicodeDecodeError], [csv.Error], ...), by the name of the class. *)
Inductive read_exn : Type :=
| OSError (text : string)
| OtherError (class : string).

(** A file that is not read to its end: the records the reader yields before
    it raises, none when it is [open] that raises, and what is raised. *)
Record read_failure : Type := {
  yielded : list csv_row;
  raised : read_exn
}.

(** How [parse_routes] ends: with the station map, with a
    [RouteParsingError] of the given message, with an exception of the
    reader that it does not catch, or with an exception or a shortage of fuel
    that [add_route] hands on. *)
Inductive parsed : Type :=
| Parsed (station_map : StationMap)
| RouteParsingError (msg : string)
| ReaderError (class : string)
| Uncaught (e : exn)
| Unfinished.

Section loader.

(** [int] on a string, [None] for [ValueError]; and what opening and reading
    the file at a path gives: the records of a file that is read to its end,
    or the failure to read it. *)
Context (int : string → option Z) (read : string → read_failure + list csv_row).

(** [for row in reader] of [parse_routes] with its body.  [csv.DictReader]
    skips records without fields and gives [None] for the fields a record is
    short of, on which [int] raises [TypeError]; fields after the third are
    not looked at. *)
Fixpoint parse_rows (rows : list csv_row) (station_map : StationMap) : parsed :=
  match rows with
  | [] => Parsed station_map
  | row :: rows =>
      match fields row with
      | [] => parse_rows rows station_map
      | [_] | [_; _] =>
          RouteParsingError
            (RouteParsingError_message
               "Invalid route format. Expected format: origin_name, destination_name, distance."
               (Some (line_num row)))
      | origin :: destination :: text :: _ =>
          match int text with
          | None =>
              RouteParsingError
                (RouteParsingError_message ("'" ++ text ++ "' is not an integer")%string
                   (Some (line_num row)))
          | Some distance =>
              match add_route origin destination distance station_map with
              | (Ret _, station_map) => parse_rows rows station_map
              | (Raise (DuplicateRouteError a b), _) =>
                  RouteParsingError
                    (RouteParsingError_message
                       ("Route parsing failed: "
                          ++ default "" (message (DuplicateRouteError a b)))%string
                       (Some (line_num row)))
              | (Raise e, _) => Uncaught e
              | (NoFuel, _) => Unfinished
              end
          end
      end
  end.

(** [parse_routes].  The records that the reader yields are loaded one after
    the other, so that a record that does not load ends the call before a
    later failure to read; [except OSError] catches no exception of another
    class.  The [RouteParsingError] for a file without routes is constructed
    and not raised. *)
Definition parse_routes (path : string) : parsed :=
  match read path with
  | inl failure =>
      match parse_rows (yielded failure) StationMap_init with
      | Parsed _ =>
          match raised failure with
          | OSError e =>
              RouteParsingError
                (RouteParsingError_message ("Unable to open route file: " ++ e)%string None)
          | OtherError class => ReaderError class
          end
      | r => r
      end
  | inr rows =>
      match parse_rows rows StationMap_init with
      | Parsed station_map =>
          let unraised :=
            if bool_decide (size (stations station_map) = 0%nat)
            then Some (RouteParsingError
                         (RouteParsingError_message
                            "Input file has no route definitions." None))
            else None in
          Parsed station_map
      | r => r
      end
  end.

End loader.

(** The routes the records of a file stand for, in their order: a record
    without fields stands for none. *)
Fixpoint routes_of_rows (int : string → option Z) (rows : list csv_row)
    : option (list (string * string * Z)) :=
  match rows with
  | [] => Some []
  | row :: rows =>
      match fields row with
      | [] => routes_of_rows int rows
      | origin :: destination :: text :: _ =>
          distance ← int text;
          rs ← routes_of_rows int rows;
          Some ((origin, destination, distance) :: rs)
      | _ => None
      end
  end.

(** * Specification *)

(** ** Station maps and paths *)

(** The station maps the program can hold: those a load builds from the empty
    map, every [add_route] of it having returned. *)
Definition built (self : StationMap) : Prop :=
  ∃ rows, add_routes rows StationMap_init = (Ret (), self).

(** Every station a route leads to is registered. *)
Definition dests_registered (self : StationMap) : Prop :=
  ∀ k s v w, stations self !! k = Some s → (v, w) ∈ routes s → v ∈ dom (stations self).

(** [has_route self u v]: there is a route from [u] to [v]. *)
Definition has_route (self : StationMap) (u v : string) : Prop :=
  ∃ s, stations self !! u = Some s ∧ v ∈ (routes s).*1.

(** [edge self u v w]: the route from [u] to [v] has distance [w]. *)
Definition edge (self : StationMap) (u v : string) (w : Z) : Prop :=
  ∃ s, stations self !! u = Some s ∧ (v, w) ∈ routes s.

(** No route has a negative distance. *)
Definition nonneg_routes (self : StationMap) : Prop :=
  map_Forall (λ _ s, Forall (λ r : string * Z, 0 ≤ r.2) (routes s)) (stations self).

(** What holds of every built map: routes lead to registered stations, a
    station has one route at most to another, and a station is stored under
    its name. *)
Record wf (self : StationMap) : Prop := {
  wf_dests : dests_registered self;
  wf_nodup : ∀ k s, stations self !! k = Some s → NoDup (routes s).*1;
  wf_name : ∀ k s, stations self !! k = Some s → name s = k
}.

(** The store [add_route] hands to [Station.add_route]: both ends registered. *)
Definition with_ends (o d : string) (self : StationMap) : StationMap :=
  (_add_station d (_add_station o self).2).2.

(** [walk self o p W]: [p] lists the stations of a directed path that starts at
    [o], the last station first, and [W] is the sum of the distances of its
    routes.  The path has [length p - 1] routes and may pass a station more
    than once. *)
Inductive walk (self : StationMap) (o : string) : list string → Z → Prop :=
| walk_start : walk self o [o] 0
| walk_step y z p w W :
    walk self o (y :: p) W → edge self y z w → walk self o (z :: y :: p) (W + w).

(** ** Fuel *)

(** The routes out of the stations that are not in [V]. *)
Definition pending (self : StationMap) (V : gset string) : nat :=
  sum_list_with (λ ks, if bool_decide (ks.1 ∈ V) then 0%nat else length (routes ks.2))
    (map_to_list (stations self)).

(** Fuel that is enough for every query on [self]: one turn of the search loop
    for the origin and two for every route, and one turn of the loop of
    [_count_stops] for every station. *)
Definition fuel_bound (self : StationMap) : nat :=
  (1 + 2 * pending self ∅ + size (stations self))%nat.

(** ** Answers *)

(** What a query for the route from [o] to [d] may answer: the distance of a
    shortest path and the number of stations strictly inside one such path,
    which passes no station twice, or [(math.inf, None)] when there is no
    path at all. *)
Definition shortest_result (self : StationMap) (o d : string)
    (r : num * option nat) : Prop :=
  (∃ zd stops p,
      r = (Int zd, Some stops) ∧
      (∀ p' W, walk self o (d :: p') W → zd ≤ W) ∧
      walk self o (d :: p) zd ∧ length p = S stops ∧ NoDup (d :: p)) ∨
  (r = (Inf, None) ∧ ∀ p W, ¬ walk self o (d :: p) W).

(** The query for the route from [o] to [d] answers [(distance, stop_count)]
    where no directed path from [o] to [d] has a smaller sum than [distance]
    and some directed path from [o] to [d] with the sum [distance] has
    [stop_count + 1] routes; that path passes no station twice. *)
Definition answers_shortest (self : StationMap) (o d : string) : Prop :=
  ∃ distance stop_count,
    (∀ fuel, (fuel_bound self ≤ fuel)%nat →
       find_shortest_route fuel o d self = (Ret (Int distance, Some stop_count), self)) ∧
    (∀ p W, walk self o (d :: p) W → distance ≤ W) ∧
    (∃ p, walk self o (d :: p) distance ∧ length p = (stop_count + 1)%nat ∧ NoDup (d :: p)).

(** ** The order of the queue and the heap invariant of heapq *)

(** [a ≤ b] on [int | float], as [not (b < a)]. *)
Definition num_le (a b : num) : Prop := num_ltb b a = false.

(** No entry is smaller than its parent. *)
Definition heap_ordered (h : list entry) : Prop :=
  ∀ j a b, (0 < j)%nat → h !! ((j - 1) / 2)%nat = Some a → h !! j = Some b →
    num_le a.1 b.1.

(** [h] is heap ordered but for the entry at [pos], whose value does not count:
    its children are not smaller than its parent. *)
Definition heap_hole (h : list entry) (pos : nat) : Prop :=
  (∀ j a b, (0 < j)%nat → j ≠ pos → ((j - 1) / 2)%nat ≠ pos →
     h !! ((j - 1) / 2)%nat = Some a → h !! j = Some b → num_le a.1 b.1) ∧
  (∀ j a b, (0 < pos)%nat → ((j - 1) / 2)%nat = pos → (0 < j)%nat →
     h !! ((pos - 1) / 2)%nat = Some a → h !! j = Some b → num_le a.1 b.1).

(** [x] is not bigger than the children of [pos]. *)
Definition below_children (h : list entry) (pos : nat) (x : entry) : Prop :=
  ∀ j b, (0 < j)%nat → ((j - 1) / 2)%nat = pos → h !! j = Some b → num_le x.1 b.1.

(** ** The invariant of the search without negative distances *)

(** [dist[x]], [math.inf] where [dist] has no entry. *)
Definition dist_at (dist : gmap string num) (x : string) : num :=
  default Inf (dist !! x).

(** The predecessor links from [v] back to the origin: [l] lists the stations
    that follow [v] on the way back, all of them in [V], and [W] is [dist[v]]. *)
Inductive chain (self : StationMap) (o : string) (V : gset string)
    (dist : gmap string num) (prev : gmap string string)
    : string → list string → Z → Prop :=
| chain_origin : chain self o V dist prev o [] 0
| chain_link v p l w W :
    v ≠ o → prev !! v = Some p → p ∈ V → edge self p v w →
    dist !! v = Some (Int (W + w)) → v ∉ p :: l →
    chain self o V dist prev p l W →
    chain self o V dist prev v (p :: l) (W + w).

(** Every route out of a station of [V] has been relaxed. *)
Definition relaxed (self : StationMap) (V : gset string) (dist : gmap string num) : Prop :=
  ∀ y z w, y ∈ V → edge self y z w →
    num_le (dist_at dist z) (num_add (dist_at dist y) w).

(** The invariant of the search for the route from [o] to [d]; [V] is
    [visited], together with the station being worked on.  In this order:
    [dist] has an entry for every station, and [0] for the origin; the
    destination is not in [V], the origin is as soon as [V] has a station;
    no distance is negative; the stations of [V] have a distance, which is
    not bigger than that of a station outside [V]; a station outside [V]
    that has a distance is in the queue with it; an entry of the queue is
    not smaller than the distance of its station; the queue is a heap;
    [prev] and [dist] of a station with a distance come from a route out of
    a station of [V]; and the stations of [V] have a chain back to the
    origin. *)
Record Inv (self : StationMap) (o d : string) (V : gset string)
    (heap : list entry) (dist : gmap string num) (prev : gmap string string) : Prop := {
  inv_dom : dom dist = dom (stations self);
  inv_o : dist !! o = Some (Int 0);
  inv_d : d ∉ V;
  inv_oV : ∀ v, v ∈ V → o ∈ V;
  inv_nonneg : ∀ x z, dist !! x = Some (Int z) → 0 ≤ z;
  inv_fin : ∀ v, v ∈ V → ∃ z, dist !! v = Some (Int z);
  inv_M : ∀ z x, z ∈ V → x ∉ V → num_le (dist_at dist z) (dist_at dist x);
  inv_H : ∀ x z, x ∉ V → dist !! x = Some (Int z) → (Int z, x) ∈ heap;
  inv_E : ∀ e, e ∈ heap → ∃ z z', e.1 = Int z ∧ dist !! e.2 = Some (Int z') ∧ z' ≤ z;
  inv_HP : heap_ordered heap;
  inv_R : ∀ x z, dist !! x = Some (Int z) → x ≠ o →
    ∃ p w zp, prev !! x = Some p ∧ p ∈ V ∧ edge self p x w ∧
              dist !! p = Some (Int zp) ∧ z = zp + w;
  inv_C : ∀ v, v ∈ V → ∃ l W, chain self o V dist prev v l W
}.

(** ** The invariant of the search with any distances *)

(** The entries the route [r] out of [u] may still add to the queue: none
    once its end is visited, at most one once [u] is visited and then only
    as long as the route improves [dist], and at most two before. *)
Definition owed (vis : gset string) (dist : gmap string num) (u : string)
    (r : string * Z) : nat :=
  if bool_decide (r.1 ∈ vis) then 0%nat
  else if bool_decide (u ∈ vis)
       then if num_ltb (num_add (dist_at dist u) r.2) (dist_at dist r.1) then 1%nat else 0%nat
       else 2%nat.

(** What all routes together owe. *)
Definition work (self : StationMap) (vis : gset string) (dist : gmap string num) : nat :=
  sum_list_with (λ ks, sum_list_with (owed vis dist ks.1) (routes ks.2))
    (map_to_list (stations self)).

(** The routes of [rs] whose end is not visited. *)
Definition unvisited_ends (vis : gset string) (rs : list (string * Z)) : nat :=
  sum_list_with (λ r, if bool_decide (r.1 ∈ vis) then 0%nat else 1%nat) rs.

(** What the search keeps on every map, whatever the distances are: [dist] has
    an entry for every station, the queue is a heap, and its stations are
    registered and can be reached from the origin. *)
Record Reach (self : StationMap) (o : string) (heap : list entry)
    (dist : gmap string num) : Prop := {
  reach_dom : dom dist = dom (stations self);
  reach_heap : ∀ e, e ∈ heap →
    e.2 ∈ dom (stations self) ∧ ∃ p W, walk self o (e.2 :: p) W;
  reach_HP : heap_ordered heap
}.

(** ** Example maps *)

(** The routes A→B (5), B→C (5) and A→C (15). *)
Definition rows_abc : list (string * string * Z) :=
  [("A", "B", 5); ("B", "C", 5); ("A", "C", 15)]%string.

Definition map_abc : StationMap := (add_routes rows_abc StationMap_init).2.

(** The route A→B (5) and a station C that A does not lead to. *)
Definition rows_apart : list (string * string * Z) :=
  [("A", "B", 5); ("C", "B", 2)]%string.

Definition map_apart : StationMap := (add_routes rows_apart StationMap_init).2.

(** A map with a negative distance: A→B (1), A→C (2) and C→B (-5). *)
Definition rows_negative : list (string * string * Z) :=
  [("A", "B", 1); ("A", "C", 2); ("C", "B", -5)]%string.

Definition map_negative : StationMap := (add_routes rows_negative StationMap_init).2.

(** Two routes of the same length from A to D, over B and over C. *)
Definition rows_tie : list (string * string * Z) :=
  [("A", "B", 1); ("A", "C", 1); ("B", "D", 1); ("C", "D", 1)]%string.

Definition map_tie : StationMap := (add_routes rows_tie StationMap_init).2.

(** ** Predecessor links *)

(** [hops prev origin v n]: following [prev] from [v] reaches [origin] after
    [n] stations that are not [origin]. *)
Inductive hops (prev : gmap string string) (origin : string) : string → nat → Prop :=
| hops_last v : prev !! v = Some origin → hops prev origin v 0
| hops_more v p n :
    prev !! v = Some p → p ≠ origin → hops prev origin p n → hops prev origin v (S n).

(** ** The invariant of the search for answers with any distances *)

(** What the search keeps on every built map: [dist] has an entry for every
    station and a distance for the origin; the destination is not in [V]; a
    distance in [dist] is the sum of a path from the origin; a station with a
    distance, but the origin, has a predecessor with a distance; the stations
    of [V] have a distance; a station outside [V] with a distance is in the
    queue; the stations of the queue have a distance; the queue is a heap. *)
Record Any (self : StationMap) (o d : string) (V : gset string)
    (heap : list entry) (dist : gmap string num) (prev : gmap string string) : Prop := {
  any_dom : dom dist = dom (stations self);
  any_o : ∃ z, dist !! o = Some (Int z);
  any_d : d ∉ V;
  any_walk : ∀ x z, dist !! x = Some (Int z) → ∃ p, walk self o (x :: p) z;
  any_prev : ∀ x z, dist !! x = Some (Int z) → x ≠ o →
    ∃ p zp, prev !! x = Some p ∧ dist !! p = Some (Int zp);
  any_vis : ∀ v, v ∈ V → ∃ z, dist !! v = Some (Int z);
  any_heap : ∀ x z, x ∉ V → dist !! x = Some (Int z) → ∃ e, e ∈ heap ∧ e.2 = x;
  any_ent : ∀ e, e ∈ heap → ∃ z, dist !! e.2 = Some (Int z);
  any_HP : heap_ordered heap
}.

(** Every station a route out of [V] leads to has a distance. *)
Definition discovered (self : StationMap) (V : gset string) (dist : gmap string num) : Prop :=
  ∀ u v w, u ∈ V → edge self u v w → ∃ z, dist !! v = Some (Int z).

(** What a query may come to on a built map with any distances: no fuel is
    left, or the answer is [(math.inf, None)] and there is no path, or the
    answer is a distance that is the sum of a path. *)
Definition any_answer (self : StationMap) (o d : string)
    (r : outcome (num * option nat)) : Prop :=
  r = NoFuel ∨
  (r = Ret (Inf, None) ∧ ∀ p W, ¬ walk self o (d :: p) W) ∨
  (∃ z n p, r = Ret (Int z, Some n) ∧ walk self o (d :: p) z).

(** ** Use of the queue *)

(** [heappush] of every item of [items] in turn. *)
Fixpoint heappush_all (items : list entry) (heap : list entry) : outcome (list entry) :=
  match items with
  | [] => Ret heap
  | item :: items => heap ← heappush heap item; heappush_all items heap
  end.

(** [n] times [heappop], the entries in the order they come out. *)
Fixpoint heappop_all (n : nat) (heap : list entry) : outcome (list entry) :=
  match n with
  | O => Ret []
  | S n => '(item, heap) ← heappop heap; items ← heappop_all n heap; Ret (item :: items)
  end.

(** A map with a negative distance from a station to itself: A→B (1),
    B→B (-1) and B→C (1). *)
Definition rows_loop : list (string * string * Z) :=
  [("A", "B", 1); ("B", "B", -1); ("B", "C", 1)]%string.

Definition map_loop : StationMap := (add_routes rows_loop StationMap_init).2.

(** ** Example files *)

(** [int] on the distances of the example files, and on a text that is not a
    number. *)
Definition int_example (text : string) : option Z :=
  if bool_decide (text = "5"%string) then Some 5
  else if bool_decide (text = "15"%string) then Some 15
  else if bool_decide (text = "7"%string) then Some 7
  else None.

(** The records of the file with the lines [A,B,5], [B,C,5] and [A,C,15]. *)
Definition file_abc : list csv_row :=
  [ {| line_num := 1; fields := ["A"; "B"; "5"]%string |};
    {| line_num := 2; fields := ["B"; "C"; "5"]%string |};
    {| line_num := 3; fields := ["A"; "C"; "15"]%string |} ].

(** The files under the paths the examples use: the first as above, the
    others with one more line, [A,B,7], [C,D] or [C,D,far], one with an
    empty line only, and two that cannot be decoded after their third and
    fourth line; no other path can be opened. *)
Definition read_example (path : string) : read_failure + list csv_row :=
  if bool_decide (path = "abc.csv"%string) then inr file_abc
  else if bool_decide (path = "twice.csv"%string)
  then inr (file_abc ++ [ {| line_num := 4; fields := ["A"; "B"; "7"]%string |} ])
  else if bool_decide (path = "short.csv"%string)
  then inr (file_abc ++ [ {| line_num := 4; fields := ["C"; "D"]%string |} ])
  else if bool_decide (path = "far.csv"%string)
  then inr (file_abc ++ [ {| line_num := 4; fields := ["C"; "D"; "far"]%string |} ])
  else if bool_decide (path = "empty.csv"%string)
  then inr [ {| line_num := 1; fields := [] |} ]
  else if bool_decide (path = "latin1.csv"%string)
  then inl {| yielded := file_abc; raised := OtherError "UnicodeDecodeError" |}
  else if bool_decide (path = "short_latin1.csv"%string)
  then inl {| yielded := file_abc ++ [ {| line_num := 4; fields := ["C"; "D"]%string |} ];
              raised := OtherError "UnicodeDecodeError" |}
  else inl {| yielded := [];
              raised := OSError ("[Errno 2] No such file or directory: '"
                                 ++ path ++ "'")%string |}.

(** ** The answer of a query

    What the loop of [search] and the body of [find_shortest_route] answer, as
    functions of the store they start on.  They are the same code with the
    store as a parameter that cannot change; [search_run] and
    [find_shortest_route_run] show that the program, which runs on the store
    and hands it on from step to step, gives these answers. *)

Definition reads {A : Type} (f : StationMap → outcome A) : M A :=
  λ self, (f self, self).

Fixpoint search_result (self : StationMap) (origin destination : string) (fuel : nat)
    (l : locals) : outcome (num * option nat) :=
  match unvisited_stations l with
  | [] => Ret (Inf, None)
  | _ :: _ =>
      match fuel with
      | O => NoFuel
      | S fuel =>
          '(item, heap) ← heappop (unvisited_stations l);
          let current_station := item.2 in
          if bool_decide (current_station = destination) then
            d ← dict_get (dist l) current_station;
            stops ← _count_stops fuel current_station origin (prev l) 0;
            Ret (d, Some stops)
          else
            s ← dict_get (stations self) current_station;
            l ← for_routes current_station (routes s)
                  {| unvisited_stations := heap; visited := visited l;
                     dist := dist l; prev := prev l |};
            search_result self origin destination fuel
              {| unvisited_stations := unvisited_stations l;
                 visited := {[current_station]} ∪ visited l;
                 dist := dist l; prev := prev l |}
      end
  end.

Definition find_shortest_route_result (fuel : nat)
    (origin_name destination_name : string) : StationMap → outcome (num * option nat) :=
  (λ self,
    if bool_decide (origin_name ∉ dom (stations self))
    then Raise (StationDoesNotExistError origin_name)
    else if bool_decide (destination_name ∉ dom (stations self))
    then Raise (StationDoesNotExistError destination_name)
    else if bool_decide (origin_name = destination_name)
    then Ret (Int 0, Some 0%nat)
    else
      let origin := origin_name in
      let destination := destination_name in
      heap ← heappush [] (Int 0, origin);
      search_result self origin destination fuel
        {| unvisited_stations := heap; visited := ∅;
           dist := initial_dist self origin; prev := ∅ |}).

(** A step that leaves the store it runs on as it finds it, however it
    ends.  [add_route] is not one. *)
Definition keeps {A : Type} (m : M A) : Prop := ∀ self, (m self).2 = self.

(** * Proofs *)

(** Decides a closed proposition by computation. *)
Ltac by_compute := apply (bool_decide_unpack _); vm_compute; exact I.

(** ** Simplification of the monads *)

Lemma bind_Ret {A B : Type} (a : A) (f : A → outcome B) : Ret a ≫= f = f a.
Proof. reflexivity. Qed.

Lemma bind_Raise {A B : Type} e (f : A → outcome B) : Raise e ≫= f = Raise e.
Proof. reflexivity. Qed.

(** ** The query on the store *)

Lemma keeps_local {A : Type} (r : outcome A) : keeps (local r).
Proof. by intros self. Qed.

Lemma keeps_get_self : keeps get_self.
Proof. by intros self. Qed.

Lemma keeps_bind {A B : Type} (m : M A) (f : A → M B) :
  keeps m → (∀ a, keeps (f a)) → keeps (m ≫= f).
Proof.
  intros Hm Hf self. unfold mbind, M_bind. specialize (Hm self).
  destruct (m self) as [[a|e|] self']; simpl in *; subst; [apply Hf|done..].
Qed.

Example add_route_changes : ¬ keeps (add_route "A" "B" 5).
Proof.
  intros H. specialize (H StationMap_init).
  apply (f_equal (λ self, size (stations self))) in H. vm_compute in H. discriminate.
Qed.

Lemma search_keeps o d fuel l : keeps (search o d fuel l).
Proof.
  revert l. induction fuel as [|fuel IH]; intros l; simpl;
    destruct (unvisited_stations l) as [|e h]; try apply keeps_local.
  apply keeps_bind; [apply keeps_local|]. intros [item heap]. case_bool_decide.
  - repeat (apply keeps_bind; [apply keeps_local|intros ?]). apply keeps_local.
  - apply keeps_bind; [apply keeps_get_self|intros self].
    repeat (apply keeps_bind; [apply keeps_local|intros ?]). apply IH.
Qed.

Lemma search_run o d fuel l self :
  search o d fuel l self = (search_result self o d fuel l, self).
Proof.
  revert l. induction fuel as [|fuel IH]; intros l; simpl;
    destruct (unvisited_stations l) as [|e h]; try reflexivity.
  unfold mbind at 1, M_bind at 1, local at 1.
  destruct (heappop (e :: h)) as [[item heap]|x|]; [|done..]. rewrite bind_Ret.
  case_bool_decide.
  - unfold mbind at 1, M_bind at 1, local at 1.
    destruct (dict_get (dist l) item.2) as [z|x|]; [|done..]. rewrite bind_Ret.
    unfold mbind at 1, M_bind at 1, local at 1.
    by destruct (_count_stops fuel item.2 o (prev l) 0) as [z'|x|].
  - unfold mbind at 1, M_bind at 1, get_self at 1.
    unfold mbind at 1, M_bind at 1, local at 1.
    destruct (dict_get (stations self) item.2) as [s|x|]; [|done..]. rewrite bind_Ret.
    unfold mbind at 1, M_bind at 1, local at 1.
    destruct (for_routes _ _ _) as [l'|x|]; [|done..]. rewrite bind_Ret. apply IH.
Qed.

Lemma find_shortest_route_run fuel o d self :
  find_shortest_route fuel o d self = reads (find_shortest_route_result fuel o d) self.
Proof.
  unfold find_shortest_route, find_shortest_route_result, reads.
  unfold mbind at 1, M_bind at 1, get_self at 1. case_bool_decide; [done|].
  unfold mbind at 1, M_bind at 1, get_self at 1. case_bool_decide; [done|].
  case_bool_decide; [done|].
  unfold mbind at 1, M_bind at 1, get_self at 1.
  unfold mbind at 1, M_bind at 1, local at 1.
  destruct (heappush [] (Int 0, o)) as [heap|x|]; [|done..]. rewrite bind_Ret.
  apply search_run.
Qed.

(** ** [add_route] *)

Lemma _add_station_dom n self :
  dom (stations (_add_station n self).2) = {[n]} ∪ dom (stations self).
Proof.
  unfold _add_station. case_bool_decide as H; simpl.
  - by rewrite dom_insert_L.
  - set_solver.
Qed.

Lemma _add_station_ret n self : (_add_station n self).1 = Ret ().
Proof. unfold _add_station. by case_bool_decide. Qed.

Lemma _add_station_lookup n k self :
  stations (_add_station n self).2 !! k =
    match stations self !! k with
    | Some s => Some s
    | None => if bool_decide (k = n) then Some (Station_init n) else None
    end.
Proof.
  unfold _add_station. case_bool_decide as H; simpl.
  - apply not_elem_of_dom in H. destruct (decide (k = n)) as [->|Hne].
    + rewrite lookup_insert_eq, H. by rewrite bool_decide_eq_true_2.
    + rewrite lookup_insert_ne by done. destruct (stations self !! k); [done|].
      by rewrite bool_decide_eq_false_2.
  - apply elem_of_dom in H as [s Hs].
    destruct (stations self !! k) eqn:E; [done|].
    case_bool_decide; [congruence | done].
Qed.

Lemma add_route_unfold o d w self :
  add_route o d w self = Station_add_route o d w (_add_station d (_add_station o self).2).2.
Proof.
  unfold add_route, mbind, M_bind.
  pose proof (_add_station_ret o self) as H1.
  destruct (_add_station o self) as [r1 s1]; simpl in *; subst r1.
  pose proof (_add_station_ret d s1) as H2.
  destruct (_add_station d s1) as [r2 s2]; simpl in *; subst r2. done.
Qed.

Lemma with_ends_lookup o d k self :
  stations (with_ends o d self) !! k =
    match stations self !! k with
    | Some s => Some s
    | None => if bool_decide (k = o ∨ k = d) then Some (Station_init k) else None
    end.
Proof.
  unfold with_ends. rewrite !_add_station_lookup.
  destruct (stations self !! k); [done|].
  repeat case_bool_decide; subst; try done; naive_solver.
Qed.

Lemma with_ends_id o d self :
  o ∈ dom (stations self) → d ∈ dom (stations self) → with_ends o d self = self.
Proof.
  intros Ho Hd. unfold with_ends, _add_station.
  rewrite (bool_decide_eq_false_2 (o ∉ _)) by (intros H; by apply H). simpl.
  rewrite (bool_decide_eq_false_2 (d ∉ _)) by (intros H; by apply H). done.
Qed.

Lemma with_ends_dom o d self :
  dom (stations (with_ends o d self)) = {[o; d]} ∪ dom (stations self).
Proof. unfold with_ends. rewrite !_add_station_dom. set_solver. Qed.

Lemma wf_empty : wf StationMap_init.
Proof. split; intros k s; simpl; intros; simplify_map_eq. Qed.

Lemma with_ends_wf o d self : wf self → wf (with_ends o d self).
Proof.
  intros [H1 H2 H3]. split.
  - intros k s v w Hk Hv. rewrite with_ends_dom. rewrite with_ends_lookup in Hk.
    destruct (stations self !! k) eqn:E.
    + simplify_eq. specialize (H1 _ _ _ _ E Hv). set_solver.
    + case_bool_decide; simplify_eq. simpl in Hv. by apply elem_of_nil in Hv.
  - intros k s Hk. rewrite with_ends_lookup in Hk.
    destruct (stations self !! k) eqn:E; simplify_eq; [eauto|].
    case_bool_decide; simplify_eq. simpl. constructor.
  - intros k s Hk. rewrite with_ends_lookup in Hk.
    destruct (stations self !! k) eqn:E; simplify_eq; [eauto|].
    case_bool_decide; by simplify_eq.
Qed.

Lemma Station_add_route_wf o d w self :
  wf self → wf (Station_add_route o d w self).2.
Proof.
  intros Hwf. unfold Station_add_route.
  destruct (stations self !! o) as [so|] eqn:Eo; [|done].
  destruct (stations self !! d) as [sd|] eqn:Ed; [|done].
  case_bool_decide as Hin; [done|]. simpl.
  destruct Hwf as [H1 H2 H3]. split; simpl.
  - intros k s v x Hk Hv. simpl in *. rewrite dom_insert_L.
    destruct (decide (o = k)) as [->|Hne].
    + rewrite lookup_insert_eq in Hk. simplify_eq. simpl in Hv.
      apply elem_of_app in Hv as [Hv|Hv].
      * specialize (H1 _ _ _ _ Eo Hv). set_solver.
      * apply list_elem_of_singleton in Hv. simplify_eq.
        apply elem_of_union_r, elem_of_dom. eauto.
    + rewrite lookup_insert_ne in Hk by done.
      specialize (H1 _ _ _ _ Hk Hv). set_solver.
  - intros k s Hk. destruct (decide (o = k)) as [->|Hne].
    + rewrite lookup_insert_eq in Hk. simplify_eq. simpl.
      rewrite fmap_app. simpl. apply NoDup_app. split; [eauto|]. split.
      * intros x Hx Hx'. apply list_elem_of_singleton in Hx'. by subst.
      * apply NoDup_singleton.
    + rewrite lookup_insert_ne in Hk by done. eauto.
  - intros k s Hk. destruct (decide (o = k)) as [->|Hne].
    + rewrite lookup_insert_eq in Hk. simplify_eq. simpl. eauto.
    + rewrite lookup_insert_ne in Hk by done. eauto.
Qed.

Lemma add_route_wf o d w self : wf self → wf (add_route o d w self).2.
Proof.
  intros H. rewrite add_route_unfold.
  by apply Station_add_route_wf, with_ends_wf.
Qed.

Lemma add_routes_wf rows self r self' :
  wf self → add_routes rows self = (r, self') → wf self'.
Proof.
  revert self. induction rows as [|[[o d] w] rows IH]; intros self Hwf Hrun; simpl in Hrun.
  - unfold mret, M_ret in Hrun. by simplify_eq.
  - unfold mbind, M_bind in Hrun.
    pose proof (add_route_wf o d w self Hwf) as Hwf1.
    destruct (add_route o d w self) as [[[]| |] s1]; simpl in *; simplify_eq; eauto.
Qed.

Lemma built_wf self : built self → wf self.
Proof. intros [rows H]. eapply add_routes_wf, H. apply wf_empty. Qed.

(** What [add_route] does, by cases on whether the route is there already. *)
Lemma add_route_dup o d w self so sd :
  stations self !! o = Some so → stations self !! d = Some sd →
  d ∈ (routes so).*1 →
  add_route o d w self = (Raise (DuplicateRouteError (name so) (name sd)), self).
Proof.
  intros Ho Hd Hin. rewrite add_route_unfold.
  fold (with_ends o d self).
  rewrite with_ends_id by (apply elem_of_dom; eauto).
  unfold Station_add_route. rewrite Ho, Hd.
  by rewrite bool_decide_eq_true_2.
Qed.

Lemma add_route_new o d w self :
  ¬ has_route self o d →
  ∃ so, stations (with_ends o d self) !! o = Some so ∧
    add_route o d w self =
      (Ret (),
       {| stations := <[o := {| name := name so; routes := routes so ++ [(d, w)] |}]>
                        (stations (with_ends o d self)) |}).
Proof.
  intros Hno. rewrite add_route_unfold. fold (with_ends o d self).
  assert (is_Some (stations (with_ends o d self) !! o)) as [so Ho].
  { apply elem_of_dom. rewrite with_ends_dom. set_solver. }
  assert (is_Some (stations (with_ends o d self) !! d)) as [sd Hd].
  { apply elem_of_dom. rewrite with_ends_dom. set_solver. }
  exists so. split; [done|]. unfold Station_add_route. rewrite Ho, Hd.
  rewrite bool_decide_eq_false_2; [done|].
  intros Hin. apply Hno. rewrite with_ends_lookup in Ho.
  destruct (stations self !! o) as [s|] eqn:E.
  - simplify_eq. exists so. done.
  - case_bool_decide; simplify_eq. simpl in Hin. by apply elem_of_nil in Hin.
Qed.

(** ** The order of the queue *)

Lemma num_le_refl a : num_le a a.
Proof. destruct a; unfold num_le; simpl; [|done]. apply bool_decide_eq_false_2. lia. Qed.

Lemma num_le_trans a b c : num_le a b → num_le b c → num_le a c.
Proof.
  unfold num_le. destruct a, b, c; simpl; try done.
  rewrite !bool_decide_eq_false. lia.
Qed.

Lemma num_lt_le a b : num_ltb a b = true → num_le a b.
Proof.
  unfold num_le. destruct a, b; simpl; try done.
  rewrite bool_decide_eq_true, bool_decide_eq_false. lia.
Qed.

Lemma num_le_Int x y : num_le (Int x) (Int y) ↔ x ≤ y.
Proof. unfold num_le. simpl. rewrite bool_decide_eq_false. lia. Qed.

Lemma num_le_Inf a : num_le a Inf.
Proof. by destruct a. Qed.

Lemma entry_lt_total a b : entry_lt a b = Ret (num_ltb a.1 b.1).
Proof.
  unfold entry_lt. destruct (num_eqb a.1 b.1) eqn:E; [|done].
  assert (num_ltb a.1 b.1 = false) as ->.
  { destruct a.1, b.1; simpl in *; try done.
    apply bool_decide_eq_true in E. apply bool_decide_eq_false_2. lia. }
  by case_bool_decide.
Qed.

Lemma shiftr_1 n : Nat.shiftr n 1 = (n / 2)%nat.
Proof. by rewrite Nat.shiftr_div_pow2. Qed.

(** ** The heap invariant of heapq *)

Lemma list_get_lookup {A} (l : list A) i x : l !! i = Some x → list_get l i = Ret x.
Proof. unfold list_get. by intros ->. Qed.

Lemma list_set_lt {A} (l : list A) i x :
  (i < length l)%nat → list_set l i x = Ret (<[i := x]> l).
Proof. intros. unfold list_set. by rewrite bool_decide_eq_true_2. Qed.

(** Writing [x] over the entry at [i] trades [x] for that entry. *)
Lemma insert_Permutation {A} (l : list A) i x y :
  l !! i = Some y → x :: l ≡ₚ y :: <[i := x]> l.
Proof.
  revert i. induction l as [|z l IH]; intros [|i] H; simplify_eq/=.
  - apply perm_swap.
  - rewrite (perm_swap z x). rewrite (IH _ H). apply perm_swap.
Qed.

(** Moving the entry at [c] into the hole at [pos] moves the hole to [c]. *)
Lemma move_hole_Permutation {A} (l : list A) pos c x y :
  pos ≠ c → (pos < length l)%nat → l !! c = Some y →
  <[c := x]> (<[pos := y]> l) ≡ₚ <[pos := x]> l.
Proof.
  intros Hne Hpos Hc.
  destruct (lookup_lt_is_Some_2 l pos Hpos) as [z Hz].
  apply (Permutation_cons_inv (a := y)).
  rewrite <- (insert_Permutation (<[pos := y]> l) c x y)
    by (by rewrite list_lookup_insert_ne).
  apply (Permutation_cons_inv (a := z)).
  rewrite (perm_swap x z).
  rewrite <- (insert_Permutation l pos y z) by done.
  etrans; [apply perm_swap|].
  etrans; [apply perm_skip, (insert_Permutation l pos x z Hz)|].
  apply perm_swap.
Qed.

Lemma heap_ordered_root h r :
  heap_ordered h → h !! 0%nat = Some r → ∀ i y, h !! i = Some y → num_le r.1 y.1.
Proof.
  intros Hh Hr i. induction (lt_wf i) as [i _ IH]. intros y Hy.
  destruct (decide (i = 0%nat)) as [->|Hne].
  - simplify_eq. apply num_le_refl.
  - assert ((i - 1) / 2 < i)%nat as Hlt by lia.
    destruct (lookup_lt_is_Some_2 h ((i - 1) / 2)%nat) as [a Ha].
    { apply lookup_lt_Some in Hy. lia. }
    eapply num_le_trans; [by apply (IH _ Hlt)|].
    apply (Hh i); [lia|done..].
Qed.

Lemma heap_hole_insert h pos x : heap_hole h pos → heap_hole (<[pos := x]> h) pos.
Proof.
  intros [H1 H2]. split.
  - intros j a b ? ? ?. rewrite !list_lookup_insert_ne by done. by apply H1.
  - intros j a b ? ? ?. rewrite !list_lookup_insert_ne by lia. by apply H2.
Qed.

Lemma heap_hole_fill h pos x a :
  heap_hole h pos → below_children h pos x → (pos < length h)%nat →
  (0 < pos → h !! ((pos - 1) / 2) = Some a ∧ num_le a.1 x.1)%nat →
  heap_ordered (<[pos := x]> h).
Proof.
  intros [H1 H2] Hc Hlen Hp j u v Hj Hu Hv.
  destruct (decide (j = pos)) as [->|Hne].
  - rewrite list_lookup_insert_eq in Hv by done.
    rewrite list_lookup_insert_ne in Hu by lia. simplify_eq.
    destruct (Hp Hj) as [Ha Hle]. by simplify_eq.
  - rewrite list_lookup_insert_ne in Hv by done.
    destruct (decide (((j - 1) / 2)%nat = pos)) as [Hpar|Hpar].
    + rewrite Hpar, list_lookup_insert_eq in Hu by done. simplify_eq.
      by apply (Hc j).
    + rewrite list_lookup_insert_ne in Hu by done. by apply (H1 j).
Qed.

Lemma _siftdown_loop_eq n h newitem startpos pos :
  _siftdown_loop n h newitem startpos pos =
    if bool_decide (startpos < pos)%nat then
      match n with
      | O => NoFuel
      | S n =>
          parent ← list_get h (Nat.shiftr (pos - 1) 1);
          b ← entry_lt newitem parent;
          if b : bool then
            heap ← list_set h pos parent;
            _siftdown_loop n heap newitem startpos (Nat.shiftr (pos - 1) 1)
          else list_set h pos newitem
      end
    else list_set h pos newitem.
Proof. by destruct n. Qed.

Lemma _siftup_loop_eq n h endpos pos :
  _siftup_loop n h endpos pos =
    if bool_decide (2 * pos + 1 < endpos)%nat then
      match n with
      | O => NoFuel
      | S n =>
          childpos ←
            (if bool_decide (2 * pos + 1 + 1 < endpos)%nat then
               l ← list_get h (2 * pos + 1)%nat;
               r ← list_get h (2 * pos + 1 + 1)%nat;
               b ← entry_lt l r;
               Ret (if negb b then (2 * pos + 1 + 1)%nat else (2 * pos + 1)%nat)
             else Ret (2 * pos + 1)%nat);
          c ← list_get h childpos;
          heap ← list_set h pos c;
          _siftup_loop n heap endpos childpos
      end
    else Ret (h, pos).
Proof. by destruct n. Qed.

Lemma _siftdown_loop_ordered n h newitem pos :
  (pos ≤ n)%nat → (pos < length h)%nat →
  heap_hole h pos → below_children h pos newitem →
  ∃ h', _siftdown_loop n h newitem 0 pos = Ret h' ∧ heap_ordered h' ∧
        h' ≡ₚ <[pos := newitem]> h.
Proof.
  revert h pos. induction n as [|n IH]; intros h pos Hn Hlen Hh Hc.
  - assert (pos = 0%nat) as -> by lia. rewrite _siftdown_loop_eq.
    rewrite bool_decide_eq_false_2 by lia. rewrite list_set_lt by done.
    eexists. split; [done|]. split; [|done].
    apply (heap_hole_fill _ _ _ newitem); first [done|lia].
  - rewrite _siftdown_loop_eq. case_bool_decide as Hpos.
    2:{ rewrite list_set_lt by done. eexists. split; [done|]. split; [|done].
        apply (heap_hole_fill _ _ _ newitem); first [done|lia]. }
    rewrite shiftr_1. set (p := ((pos - 1) / 2)%nat).
    destruct (lookup_lt_is_Some_2 h p) as [a Ha]; [lia|].
    rewrite (list_get_lookup _ _ _ Ha), bind_Ret.
    rewrite entry_lt_total, bind_Ret.
    destruct (num_ltb newitem.1 a.1) eqn:Hlt.
    + rewrite list_set_lt by done. rewrite bind_Ret.
      destruct Hh as [H1 H2].
      destruct (IH (<[pos := a]> h) p) as (h' & Hrun & Hord & Hperm).
      * lia.
      * rewrite length_insert. lia.
      * split.
        -- intros j u v Hj Hjp Hpp Hu Hv.
           assert (j ≠ pos) by (intros ->; by apply Hpp).
           rewrite list_lookup_insert_ne in Hv by done.
           destruct (decide (((j - 1) / 2)%nat = pos)) as [Hjpos|Hjpos].
           ++ rewrite Hjpos, list_lookup_insert_eq in Hu by done. simplify_eq.
              apply (H2 j); first [done|lia].
           ++ rewrite list_lookup_insert_ne in Hu by done. by apply (H1 j).
        -- intros j u v Hp Hjp Hj Hu Hv.
           rewrite list_lookup_insert_ne in Hu by lia.
           assert (num_le u.1 a.1) as Hua.
           { apply (H1 p); try done; lia. }
           destruct (decide (j = pos)) as [->|Hjpos].
           ++ rewrite list_lookup_insert_eq in Hv by done. by simplify_eq.
           ++ rewrite list_lookup_insert_ne in Hv by done.
              eapply num_le_trans; [done|]. apply (H1 j); try done; [lia|].
              by rewrite Hjp.
      * intros j v Hj Hjp Hv.
        destruct (decide (j = pos)) as [->|Hjpos].
        -- rewrite list_lookup_insert_eq in Hv by done. simplify_eq.
           by apply num_lt_le.
        -- rewrite list_lookup_insert_ne in Hv by done.
           eapply num_le_trans; [by apply num_lt_le|].
           apply (H1 j); try done; [lia|]. by rewrite Hjp.
      * exists h'. split; [done|]. split; [done|].
        rewrite Hperm. apply move_hole_Permutation; [lia|done|done].
    + rewrite list_set_lt by done. eexists. split; [done|]. split; [|done].
      apply (heap_hole_fill _ _ _ a); try done.
Qed.

Lemma _siftup_loop_hole n h pos :
  (length h - pos ≤ n)%nat → (pos < length h)%nat → heap_hole h pos →
  ∃ h' pos', _siftup_loop n h (length h) pos = Ret (h', pos') ∧
    heap_hole h' pos' ∧ (pos' < length h')%nat ∧ (length h' ≤ 2 * pos' + 1)%nat ∧
    length h' = length h ∧ ∀ x, <[pos' := x]> h' ≡ₚ <[pos := x]> h.
Proof.
  revert h pos. induction n as [|n IH]; intros h pos Hn Hlen Hh.
  - lia.
  - rewrite _siftup_loop_eq. case_bool_decide as Hchild.
    2:{ exists h, pos. repeat split; try done; try lia; apply Hh. }
    set (cp := (2 * pos + 1)%nat) in *.
    destruct (lookup_lt_is_Some_2 h cp) as [lc Hlc]; [done|].
    assert (∃ c vc, (c = cp ∨ c = cp + 1)%nat ∧ h !! c = Some vc ∧
              (∀ j v, (j = cp ∨ j = cp + 1)%nat → h !! j = Some v → num_le vc.1 v.1) ∧
              (if bool_decide (cp + 1 < length h)%nat
               then l ← list_get h cp; r ← list_get h (cp + 1)%nat;
                    b ← entry_lt l r; Ret (if negb b then (cp + 1)%nat else cp)
               else Ret cp) = Ret c) as (c & vc & Hc & Hvc & Hmin & ->).
    { case_bool_decide as Hright.
      - destruct (lookup_lt_is_Some_2 h (cp + 1)%nat) as [rc Hrc]; [done|].
        rewrite (list_get_lookup _ _ _ Hlc), (list_get_lookup _ _ _ Hrc), !bind_Ret.
        rewrite entry_lt_total, bind_Ret.
        destruct (num_ltb lc.1 rc.1) eqn:Hlt; simpl.
        + exists cp, lc. split; [by left|]. split; [done|]. split; [|done].
          intros j v [->| ->] Hv; simplify_eq; [apply num_le_refl|by apply num_lt_le].
        + exists (cp + 1)%nat, rc. split; [by right|]. split; [done|]. split; [|done].
          intros j v [->| ->] Hv; simplify_eq; [done|apply num_le_refl].
      - exists cp, lc. split; [by left|]. split; [done|]. split; [|done].
        intros j v [->| ->] Hv; simplify_eq; [apply num_le_refl|].
        apply lookup_lt_Some in Hv. lia. }
    rewrite bind_Ret, (list_get_lookup _ _ _ Hvc), bind_Ret.
    rewrite list_set_lt by done. rewrite bind_Ret.
    assert (c < length h)%nat as Hclen by (by apply lookup_lt_Some in Hvc).
    assert (pos < c)%nat as Hposc by lia.
    destruct Hh as [H1 H2].
    destruct (IH (<[pos := vc]> h) c) as (h' & pos' & Hrun & Hhole & Hlt & Hleaf & Hl & Hperm).
    + rewrite length_insert. lia.
    + by rewrite length_insert.
    + split.
      * intros j u v Hj Hjc Hpc Hu Hv.
        destruct (decide (j = pos)) as [->|Hjpos].
        -- rewrite list_lookup_insert_eq in Hv by done.
           rewrite list_lookup_insert_ne in Hu by lia. simplify_eq.
           apply (H2 c); try done; lia.
        -- rewrite list_lookup_insert_ne in Hv by done.
           destruct (decide (((j - 1) / 2)%nat = pos)) as [Hpar|Hpar].
           ++ rewrite Hpar, list_lookup_insert_eq in Hu by done. simplify_eq.
              apply (Hmin j); [lia|done].
           ++ rewrite list_lookup_insert_ne in Hu by done. by apply (H1 j).
      * intros j u v Hc0 Hjc Hj Hu Hv.
        replace ((c - 1) / 2)%nat with pos in Hu by lia.
        rewrite list_lookup_insert_eq in Hu by done.
        rewrite list_lookup_insert_ne in Hv by lia. simplify_eq.
        apply (H1 j); first [done|lia].
    + rewrite length_insert in Hrun. exists h', pos'.
      split; [done|]. split; [done|]. split; [done|]. split; [done|].
      split; [by rewrite Hl, length_insert|].
      intros x. rewrite Hperm. apply move_hole_Permutation; [lia|done|done].
Qed.

Lemma heap_ordered_app h x : heap_ordered (h ++ [x]) → heap_ordered h.
Proof.
  intros H j a b Hj Ha Hb. apply (H j); [done|by apply lookup_app_l_Some..].
Qed.

(** [heappush] keeps the heap invariant and adds the item. *)
Lemma heappush_ordered h x :
  heap_ordered h → ∃ h', heappush h x = Ret h' ∧ heap_ordered h' ∧ h' ≡ₚ x :: h.
Proof.
  intros Hh. unfold heappush, _siftdown.
  rewrite length_app. simpl. replace (length h + 1 - 1)%nat with (length h) by lia.
  assert ((h ++ [x]) !! length h = Some x) as Hx.
  { rewrite lookup_app_r by lia. by rewrite Nat.sub_diag. }
  rewrite (list_get_lookup _ _ _ Hx). simpl.
  destruct (_siftdown_loop_ordered (length h) (h ++ [x]) x (length h))
    as (h' & Hrun & Hord & Hperm).
  - lia.
  - rewrite length_app. simpl. lia.
  - split.
    + intros j a b Hj Hjl Hpl Ha Hb.
      assert (j < length h)%nat.
      { apply lookup_lt_Some in Hb. rewrite length_app in Hb. simpl in Hb. lia. }
      rewrite lookup_app_l in Ha, Hb by lia. by apply (Hh j).
    + intros j a b Hp Hjp Hj Ha Hb. apply lookup_lt_Some in Hb.
      rewrite length_app in Hb. simpl in Hb. lia.
  - intros j b Hj Hjp Hb. apply lookup_lt_Some in Hb.
    rewrite length_app in Hb. simpl in Hb. lia.
  - exists h'. split; [done|]. split; [done|].
    rewrite Hperm, list_insert_id by done.
    by rewrite Permutation_app_comm.
Qed.

(** [heappop] keeps the heap invariant and takes out an entry that no other
    entry is smaller than. *)
Lemma heappop_ordered h :
  heap_ordered h → h ≠ [] →
  ∃ x h', heappop h = Ret (x, h') ∧ heap_ordered h' ∧ h ≡ₚ x :: h' ∧
          ∀ y, y ∈ h → num_le x.1 y.1.
Proof.
  intros Hh Hne. destruct (decide (h = [])) as [|_]; [done|].
  destruct h as [|r t] using rev_ind; [done|]. clear IHt.
  rename r into lastelt. unfold heappop, list_pop.
  rewrite last_snoc, length_app. simpl.
  replace (length t + 1 - 1)%nat with (length t) by lia.
  rewrite take_app_length. simpl.
  destruct t as [|r t].
  - exists lastelt, []. split; [done|]. split; [by intros j a b _ Ha|].
    split; [done|]. intros y Hy. apply list_elem_of_singleton in Hy as ->.
    apply num_le_refl.
  - simpl. unfold _siftup. simpl.
    destruct (_siftup_loop_hole (S (length t)) (lastelt :: t) 0)
      as (h1 & pos1 & Hrun & Hhole & Hlt & Hleaf & Hl & Hperm).
    + simpl. lia.
    + simpl. lia.
    + split; [|lia]. intros j a b Hj Hj0 Hp Ha Hb.
      apply (heap_ordered_app _ _ Hh j); [done| |].
      * destruct ((j - 1) / 2)%nat; [done|]. done.
      * destruct j; [done|]. done.
    + simpl in Hrun. rewrite Hrun. simpl.
      rewrite list_set_lt by done. simpl. unfold _siftdown.
      rewrite (list_get_lookup _ _ lastelt) by (by rewrite list_lookup_insert_eq).
      simpl.
      destruct (_siftdown_loop_ordered pos1 (<[pos1 := lastelt]> h1) lastelt pos1)
        as (h' & Hrun' & Hord & Hperm').
      * lia.
      * by rewrite length_insert.
      * by apply heap_hole_insert.
      * intros j b Hj Hjp Hb. apply lookup_lt_Some in Hb.
        rewrite length_insert in Hb. lia.
      * rewrite Hrun'. simpl. exists r, h'. split; [done|]. split; [done|]. split.
        -- rewrite Hperm', list_insert_insert_eq, Hperm. simpl.
           apply perm_skip. symmetry. apply Permutation_cons_append.
        -- intros y Hy. apply list_elem_of_lookup in Hy as [i Hi].
           by apply (heap_ordered_root _ r Hh eq_refl i).
Qed.

(** ** Paths *)

Lemma dist_at_Some dist x a : dist !! x = Some a → dist_at dist x = a.
Proof. unfold dist_at. by intros ->. Qed.

Lemma dist_at_insert_eq dist z a : dist_at (<[z := a]> dist) z = a.
Proof. unfold dist_at. by rewrite lookup_insert_eq. Qed.

Lemma dist_at_insert_ne dist z x a :
  x ≠ z → dist_at (<[z := a]> dist) x = dist_at dist x.
Proof. intros. unfold dist_at. by rewrite lookup_insert_ne. Qed.

Lemma dist_at_keep dist dist' x :
  dist' !! x = dist !! x → dist_at dist' x = dist_at dist x.
Proof. unfold dist_at. by intros ->. Qed.

Lemma sum_list_with_agree {A} (f g : A → nat) l :
  (∀ x, x ∈ l → f x = g x) → sum_list_with f l = sum_list_with g l.
Proof.
  induction l as [|x l IH]; intros H; simpl; [done|].
  rewrite H by apply list_elem_of_here. rewrite IH; [done|].
  intros y Hy. apply H. by apply list_elem_of_further.
Qed.

Lemma pending_visit self V u s :
  stations self !! u = Some s → u ∉ V →
  pending self V = (length (routes s) + pending self ({[u]} ∪ V))%nat.
Proof.
  intros Hu Hv. unfold pending.
  rewrite <- !(map_to_list_delete _ _ _ Hu). simpl.
  rewrite bool_decide_eq_false_2 by done.
  rewrite bool_decide_eq_true_2 by set_solver. f_equal.
  apply sum_list_with_agree. intros [k s'] Hk. simpl.
  apply elem_of_map_to_list in Hk.
  assert (k ≠ u) by (intros ->; by rewrite lookup_delete_eq in Hk).
  rewrite (bool_decide_ext (k ∈ V) (k ∈ {[u]} ∪ V)); [done|set_solver].
Qed.

Lemma chain_sub self o V dist prev v l W :
  chain self o V dist prev v l W → ∀ x, x ∈ l → x ∈ V.
Proof.
  induction 1 as [|v p l w W ? ? ? ? ? ? ? IH]; intros x Hx.
  - by apply elem_of_nil in Hx.
  - apply elem_of_cons in Hx as [->|Hx]; [done|]. by apply IH.
Qed.

Lemma chain_NoDup self o V dist prev v l W :
  chain self o V dist prev v l W → NoDup (v :: l).
Proof.
  induction 1 as [|v p l w W ? ? ? ? ? ? ? IH].
  - apply NoDup_singleton.
  - by constructor.
Qed.

Lemma chain_walk self o V dist prev v l W :
  chain self o V dist prev v l W → walk self o (v :: l) W.
Proof.
  induction 1 as [|v p l w W ? ? ? ? ? ? ? IH]; [constructor|].
  by apply walk_step.
Qed.

Lemma chain_dist self o V dist prev v l W :
  dist !! o = Some (Int 0) →
  chain self o V dist prev v l W → dist !! v = Some (Int W).
Proof. by destruct 2. Qed.

Lemma chain_origin_inv self o V dist prev l W :
  chain self o V dist prev o l W → l = [].
Proof. by inversion 1. Qed.

(** A chain stays one when [V] grows and [dist] and [prev] change outside [V]
    and away from [v]. *)
Lemma chain_mono self o V V' dist dist' prev prev' v l W :
  chain self o V dist prev v l W →
  V ⊆ V' →
  (∀ x, x ∈ V ∨ x = v → dist' !! x = dist !! x ∧ prev' !! x = prev !! x) →
  chain self o V' dist' prev' v l W.
Proof.
  intros Hc Hsub. induction Hc as [|v p l w W ? Hp ? ? Hd ? ? IH]; intros Hsame.
  - constructor.
  - destruct (Hsame v) as [Hd' Hp']; [by right|].
    apply chain_link; try done.
    + by rewrite Hp'.
    + by apply Hsub.
    + by rewrite Hd'.
    + apply IH. intros x [Hx| ->]; apply Hsame; left; done.
Qed.

(** [_count_stops] walks a chain and counts its stations but the origin. *)
Lemma _count_stops_chain self o V dist prev v l W fuel k :
  chain self o V dist prev v l W → v ≠ o → (length l ≤ S fuel)%nat →
  _count_stops fuel v o prev k = Ret (k + length l - 1)%nat.
Proof.
  intros Hc. revert fuel k.
  induction Hc as [|v p l w W ? Hp ? ? Hd ? Hc IH]; intros fuel k Hv Hlen; [done|].
  destruct fuel as [|fuel]; simpl.
  - unfold dict_get. rewrite Hp. simpl. simpl in Hlen.
    assert (l = []) as -> by (destruct l; [done|simpl in Hlen; lia]).
    inversion Hc; subst. rewrite bool_decide_eq_false_2 by (intros Hne; by apply Hne).
    f_equal. simpl. lia.
  - unfold dict_get. rewrite Hp. simpl. case_bool_decide as Hpo.
    + rewrite IH; [|done|simpl in Hlen; lia]. f_equal.
      destruct Hc; [done|]. simpl. lia.
    + subst p. apply chain_origin_inv in Hc as ->.
      f_equal. simpl. lia.
Qed.

Lemma num_le_Int_r a W : num_le a (Int W) ↔ ∃ z, a = Int z ∧ z ≤ W.
Proof.
  destruct a as [z|]; unfold num_le; simpl.
  - rewrite bool_decide_eq_false. split; [intros; exists z; split; [done|lia]|].
    intros (z' & ? & ?). simplify_eq. lia.
  - split; [done|]. by intros (z' & ? & ?).
Qed.

Lemma NoDup_length_size (l : list string) (X : gset string) :
  NoDup l → (∀ x, x ∈ l → x ∈ X) → (length l ≤ size X)%nat.
Proof.
  intros Hnd Hsub. rewrite <- (size_list_to_set (C := gset string) l Hnd).
  apply subseteq_size. intros x Hx. apply elem_of_list_to_set in Hx. by apply Hsub.
Qed.

(** ** The invariant of the search *)

Section search.

#[local] Arguments num_ltb : simpl never.
#[local] Arguments num_add : simpl never.

Context (self : StationMap) (o d : string).
Context (Hwf : wf self) (Hnonneg : ∀ u v w, edge self u v w → 0 ≤ w).

(** Below every path from the origin there is the distance of its end, when
    that is in [V], or the distance of some station outside [V]. *)
Lemma walk_lower V heap dist prev p W :
  Inv self o d V heap dist prev → relaxed self V dist → o ∈ V →
  walk self o p W →
  ∀ y p', p = y :: p' →
    (y ∈ V → num_le (dist_at dist y) (Int W)) ∧
    (y ∉ V → ∃ x, (x ∉ V) ∧ num_le (dist_at dist x) (Int W)).
Proof.
  intros HI HJ Ho Hw. induction Hw as [|y z p w W Hw IH He]; intros y' p' Heq; simplify_eq.
  - split; [|done]. intros _. rewrite (dist_at_Some _ _ _ (inv_o _ _ _ _ _ _ _ HI)).
    by apply num_le_Int.
  - destruct (IH y p eq_refl) as [IH1 IH2].
    pose proof (Hnonneg _ _ _ He) as Hw0.
    destruct (decide (y ∈ V)) as [Hy|Hy].
    + specialize (IH1 Hy). apply num_le_Int_r in IH1 as (zy & Hzy & Hle).
      pose proof (HJ _ _ _ Hy He) as Hrel. rewrite Hzy in Hrel. simpl in Hrel.
      assert (num_le (dist_at dist y') (Int (W + w))) as Hd.
      { eapply num_le_trans; [done|]. apply num_le_Int. lia. }
      split; [done|]. intros Hz. by exists y'.
    + destruct (IH2 Hy) as (x & Hx & Hle).
      assert (num_le (dist_at dist x) (Int (W + w))) as Hd.
      { eapply num_le_trans; [done|]. apply num_le_Int. lia. }
      split; [|intros _; by exists x].
      intros Hz. eapply num_le_trans; [|done].
      by apply (inv_M _ _ _ _ _ _ _ HI).
Qed.

(** The entry [heappop] yields is the nearest station outside [V]. *)
Lemma pop_nearest V heap dist prev e :
  Inv self o d V heap dist prev → e ∈ heap → (∀ y, y ∈ heap → num_le e.1 y.1) →
  ∀ x, x ∉ V → num_le (dist_at dist e.2) (dist_at dist x).
Proof.
  intros HI He Hmin x Hx.
  destruct (inv_E _ _ _ _ _ _ _ HI e He) as (z & z' & Hz & Hz' & Hle).
  rewrite (dist_at_Some _ _ _ Hz'). unfold dist_at.
  destruct (dist !! x) as [[zx|]|] eqn:Ex; simpl; [|apply num_le_Inf..].
  pose proof (Hmin _ (inv_H _ _ _ _ _ _ _ HI x zx Hx Ex)) as Hm.
  rewrite Hz in Hm. simpl in Hm. apply num_le_Int in Hm. apply num_le_Int. lia.
Qed.

(** The invariant after [heappop], with the popped station added to [V]. *)
Lemma Inv_pop V heap heap' dist prev e :
  Inv self o d V heap dist prev →
  heap ≡ₚ e :: heap' → heap_ordered heap' → (∀ y, y ∈ heap → num_le e.1 y.1) →
  e.2 ≠ d →
  Inv self o d ({[e.2]} ∪ V) heap' dist prev.
Proof.
  intros HI Hperm Hord Hmin Hed.
  assert (e ∈ heap) as He by (rewrite Hperm; apply list_elem_of_here).
  destruct (inv_E _ _ _ _ _ _ _ HI e He) as (z & z' & Hz & Hz' & Hle).
  assert (e.2 ∉ V → e.2 ≠ o → ∃ p, prev !! e.2 = Some p ∧ p ∈ V) as Hprev.
  { intros _ Hne. destruct (inv_R _ _ _ _ _ _ _ HI _ _ Hz' Hne) as (p & w & zp & ? & ? & _).
    by exists p. }
  destruct HI as [Hdom Ho Hd HoV Hnn Hfin HM HH HE HHP HR HC]. split; try done.
  - set_solver.
  - intros v Hv. destruct (decide (e.2 ∈ V)) as [HeV|HeV].
    { apply elem_of_union_r, (HoV e.2 HeV). }
    destruct (decide (e.2 = o)) as [->|Hne]; [set_solver|].
    destruct (Hprev HeV Hne) as (p & _ & Hp). apply elem_of_union_r, (HoV p Hp).
  - intros v Hv. apply elem_of_union in Hv as [Hv|Hv]; [|by apply Hfin].
    apply elem_of_singleton in Hv as ->. by exists z'.
  - intros v x Hv Hx. apply elem_of_union in Hv as [Hv|Hv].
    + apply elem_of_singleton in Hv as ->.
      eapply (pop_nearest V heap dist prev e); [by split|done|done|set_solver].
    + apply HM; [done|set_solver].
  - intros x zx Hx Hdx. assert ((Int zx, x) ∈ heap) as Hin by (apply HH; [set_solver|done]).
    rewrite Hperm in Hin. apply elem_of_cons in Hin as [Heq|Hin]; [|done].
    subst e. simpl in Hx. set_solver.
  - intros y Hy. apply HE. rewrite Hperm. by apply list_elem_of_further.
  - intros x zx Hx Hne. destruct (HR x zx Hx Hne) as (p & w & zp & ? & ? & ? & ? & ?).
    exists p, w, zp. repeat split; try done. set_solver.
  - assert (∀ v, v ∈ V → ∃ l W, chain self o ({[e.2]} ∪ V) dist prev v l W) as HC'.
    { intros v Hv. destruct (HC v Hv) as (l & W & Hc). exists l, W.
      eapply chain_mono; [done|set_solver|done]. }
    intros v Hv. apply elem_of_union in Hv as [Hv|Hv]; [|by apply HC'].
    apply elem_of_singleton in Hv as ->.
    destruct (decide (e.2 ∈ V)) as [HeV|HeV]; [by apply HC'|].
    destruct (decide (e.2 = o)) as [->|Hne].
    { exists [], 0. constructor. }
    destruct (HR _ _ Hz' Hne) as (p & w & zp & Hp & HpV & Hedge & Hdp & ->).
    destruct (HC p HpV) as (l & W & Hc).
    pose proof (chain_dist _ _ _ _ _ _ _ _ Ho Hc) as HW. simplify_eq.
    exists (p :: l), (zp + w). apply chain_link; try done.
    + set_solver.
    + intros Hin. apply HeV. apply elem_of_cons in Hin as [->|Hin]; [done|].
      by apply (chain_sub _ _ _ _ _ _ _ _ Hc).
    + eapply chain_mono; [done|set_solver|done].
Qed.

(** One turn of the [for] loop at a station [u] popped for the first time:
    the invariant is kept, distances only shrink, those of [V] stay, and the
    route is relaxed. *)
Lemma relax_fresh V u r heap vis dist prev :
  Inv self o d V heap dist prev →
  u ∈ V → vis ⊆ V → V ⊆ {[u]} ∪ vis →
  (∀ z, z ∈ V → num_le (dist_at dist z) (dist_at dist u)) →
  edge self u r.1 r.2 →
  ∃ heap' dist' prev',
    relax u {| unvisited_stations := heap; visited := vis; dist := dist; prev := prev |} r
      = Ret {| unvisited_stations := heap'; visited := vis; dist := dist'; prev := prev' |} ∧
    Inv self o d V heap' dist' prev' ∧
    (∀ x, num_le (dist_at dist' x) (dist_at dist x)) ∧
    (∀ x, x ∈ V → dist' !! x = dist !! x) ∧
    num_le (dist_at dist' r.1) (num_add (dist_at dist' u) r.2) ∧
    (length heap' ≤ S (length heap))%nat.
Proof.
  intros HI Hu Hvis HV Hmax He. destruct r as [z w]. simpl in *.
  pose proof (Hnonneg _ _ _ He) as Hw0.
  destruct (inv_fin _ _ _ _ _ _ _ HI u Hu) as [zu Hzu].
  pose proof (inv_nonneg _ _ _ _ _ _ _ HI _ _ Hzu) as Hzu0.
  assert (z ∈ dom dist) as Hzdom.
  { rewrite (inv_dom _ _ _ _ _ _ _ HI). destruct He as (s & Hs & Hin).
    by apply (wf_dests _ Hwf _ _ _ _ Hs Hin). }
  apply elem_of_dom in Hzdom as [dz Hdz].
  assert (∃ heap' dist' prev', Ret {| unvisited_stations := heap; visited := vis;
            dist := dist; prev := prev |} =
          Ret {| unvisited_stations := heap'; visited := vis; dist := dist'; prev := prev' |} ∧
    Inv self o d V heap' dist' prev' ∧
    (∀ x, num_le (dist_at dist' x) (dist_at dist x)) ∧
    (∀ x, x ∈ V → dist' !! x = dist !! x) ∧
    (num_le dz (Int (zu + w)) → num_le (dist_at dist' z) (num_add (dist_at dist' u) w)) ∧
    (length heap' ≤ S (length heap))%nat) as Hsame.
  { exists heap, dist, prev. split; [done|]. split; [done|].
    split; [intros; apply num_le_refl|]. split; [done|]. split; [|lia].
    by rewrite (dist_at_Some _ _ _ Hdz), (dist_at_Some _ _ _ Hzu). }
  unfold relax. simpl. case_bool_decide as Hzvis.
  2:{ destruct Hsame as (h' & d' & p' & ? & ? & ? & ? & Hr & ?).
      exists h', d', p'. split_and!; try done. apply Hr.
      assert (z ∈ V) as HzV by (by apply Hvis).
      pose proof (Hmax z HzV) as Hle.
      rewrite (dist_at_Some _ _ _ Hdz), (dist_at_Some _ _ _ Hzu) in Hle.
      eapply num_le_trans; [done|]. apply num_le_Int. lia. }
  unfold dict_get. rewrite Hzu, Hdz, !bind_Ret.
  change (num_add (Int zu) w) with (Int (zu + w)).
  destruct (num_ltb (Int (zu + w)) dz) eqn:Hlt.
  2:{ destruct Hsame as (h' & d' & p' & ? & ? & ? & ? & Hr & ?).
      exists h', d', p'. split_and!; try done. by apply Hr. }
  clear Hsame.
  assert (z ≠ u) as Hzu'.
  { intros ->. simplify_eq. unfold num_ltb in Hlt. apply bool_decide_eq_true in Hlt. lia. }
  assert (z ∉ V) as HzV by set_solver.
  assert (z ≠ o) as Hzo.
  { intros ->. rewrite (inv_o _ _ _ _ _ _ _ HI) in Hdz. simplify_eq.
    unfold num_ltb in Hlt. apply bool_decide_eq_true in Hlt. lia. }
  destruct (heappush_ordered heap (Int (zu + w), z) (inv_HP _ _ _ _ _ _ _ HI))
    as (heap' & Hpush & Hord & Hperm).
  rewrite Hpush, bind_Ret.
  exists heap', (<[z := Int (zu + w)]> dist), (<[z := u]> prev).
  split; [done|].
  assert (∀ x, x ∈ V → <[z := Int (zu + w)]> dist !! x = dist !! x) as Hkeep.
  { intros x Hx. apply lookup_insert_ne. by intros ->. }
  assert (∀ x, num_le (dist_at (<[z := Int (zu + w)]> dist) x) (dist_at dist x)) as Hshrink.
  { intros x. destruct (decide (x = z)) as [->|Hne].
    - rewrite dist_at_insert_eq, (dist_at_Some _ _ _ Hdz). by apply num_lt_le.
    - rewrite dist_at_insert_ne by done. apply num_le_refl. }
  split; [|split; [done|split; [done|split]]].
  - destruct HI as [Hdom Ho Hd HoV Hnn Hfin HM HH HE HHP HR HC]. split; try done.
    + rewrite dom_insert_L, Hdom. apply elem_of_dom_2 in Hdz. set_solver.
    + by rewrite lookup_insert_ne.
    + intros x zx Hx. destruct (decide (x = z)) as [->|Hne].
      * rewrite lookup_insert_eq in Hx. simplify_eq. lia.
      * rewrite lookup_insert_ne in Hx by done. eauto.
    + intros v Hv. rewrite Hkeep by done. by apply Hfin.
    + intros v x Hv Hx. rewrite (dist_at_keep dist _ v) by (by apply Hkeep).
      destruct (decide (x = z)) as [->|Hne].
      * rewrite dist_at_insert_eq.
        eapply num_le_trans; [by apply Hmax|].
        rewrite (dist_at_Some _ _ _ Hzu). apply num_le_Int. lia.
      * rewrite dist_at_insert_ne by done. by apply HM.
    + intros x zx Hx Hdx. rewrite Hperm. destruct (decide (x = z)) as [->|Hne].
      * rewrite lookup_insert_eq in Hdx. simplify_eq. apply list_elem_of_here.
      * rewrite lookup_insert_ne in Hdx by done. apply list_elem_of_further. eauto.
    + intros e Hin. rewrite Hperm in Hin. apply elem_of_cons in Hin as [->|Hin].
      * simpl. exists (zu + w), (zu + w). rewrite lookup_insert_eq. split_and!; [done..|lia].
      * destruct (HE e Hin) as (ze & ze' & He1 & He2 & Hle).
        destruct (decide (e.2 = z)) as [Heq|Hne].
        -- rewrite Heq in *. exists ze, (zu + w). rewrite lookup_insert_eq.
           split; [done|]. split; [done|]. simplify_eq. simpl in Hlt.
           apply bool_decide_eq_true in Hlt. lia.
        -- exists ze, ze'. by rewrite lookup_insert_ne.
    + intros x zx Hx Hxo. destruct (decide (x = z)) as [->|Hne].
      * rewrite lookup_insert_eq in Hx. simplify_eq.
        exists u, w, zu. rewrite lookup_insert_eq, lookup_insert_ne by done. done.
      * rewrite lookup_insert_ne in Hx by done.
        destruct (HR x zx Hx Hxo) as (p & w' & zp & ? & HpV & ? & ? & ?).
        exists p, w', zp. rewrite lookup_insert_ne by done.
        rewrite Hkeep by done. done.
    + intros v Hv. destruct (HC v Hv) as (l & W & Hc). exists l, W.
      eapply chain_mono; [done|done|].
      intros x Hx. assert (x ∈ V) as HxV by (by destruct Hx as [?| ->]).
      rewrite Hkeep by done. split; [done|]. apply lookup_insert_ne. by intros ->.
  - rewrite dist_at_insert_eq, dist_at_insert_ne, (dist_at_Some _ _ _ Hzu) by done.
    apply num_le_refl.
  - apply Permutation_length in Hperm. simpl in Hperm. lia.
Qed.

(** The whole [for] loop at a station popped for the first time. *)
Lemma for_routes_fresh V u rs heap vis dist prev :
  Inv self o d V heap dist prev →
  u ∈ V → vis ⊆ V → V ⊆ {[u]} ∪ vis →
  (∀ z, z ∈ V → num_le (dist_at dist z) (dist_at dist u)) →
  (∀ r, r ∈ rs → edge self u r.1 r.2) →
  ∃ heap' dist' prev',
    for_routes u rs
      {| unvisited_stations := heap; visited := vis; dist := dist; prev := prev |}
      = Ret {| unvisited_stations := heap'; visited := vis; dist := dist'; prev := prev' |} ∧
    Inv self o d V heap' dist' prev' ∧
    (∀ x, num_le (dist_at dist' x) (dist_at dist x)) ∧
    (∀ x, x ∈ V → dist' !! x = dist !! x) ∧
    (∀ r, r ∈ rs → num_le (dist_at dist' r.1) (num_add (dist_at dist' u) r.2)) ∧
    (length heap' ≤ length heap + length rs)%nat.
Proof.
  revert heap dist prev.
  induction rs as [|r rs IH]; intros heap dist prev HI Hu Hvis HV Hmax Hedges.
  - exists heap, dist, prev. simpl. split_and!; try done.
    + intros. apply num_le_refl.
    + intros r Hr. by apply elem_of_nil in Hr.
    + lia.
  - destruct (relax_fresh V u r heap vis dist prev HI Hu Hvis HV Hmax)
      as (h1 & d1 & p1 & Hrun1 & HI1 & Hle1 & Hkeep1 & Hrel1 & Hlen1).
    { apply Hedges, list_elem_of_here. }
    destruct (IH h1 d1 p1 HI1 Hu Hvis HV) as (h2 & d2 & p2 & Hrun2 & HI2 & Hle2 & Hkeep2 & Hrel2 & Hlen2).
    { intros z Hz. rewrite !(dist_at_keep dist d1) by (by apply Hkeep1). by apply Hmax. }
    { intros r' Hr'. by apply Hedges, list_elem_of_further. }
    exists h2, d2, p2. simpl. rewrite Hrun1, bind_Ret. split_and!; try done.
    + intros x. eapply num_le_trans; [apply Hle2|apply Hle1].
    + intros x Hx. rewrite Hkeep2 by done. by apply Hkeep1.
    + intros r' Hr'. apply elem_of_cons in Hr' as [->|Hr']; [|by apply Hrel2].
      eapply num_le_trans; [apply Hle2|].
      by rewrite (dist_at_keep d1 d2 u) by (by apply Hkeep2).
    + simpl. lia.
Qed.

(** The [for] loop at a station that was visited before changes nothing. *)
Lemma for_routes_stale u rs heap vis dist prev :
  Inv self o d vis heap dist prev → relaxed self vis dist → u ∈ vis →
  (∀ r, r ∈ rs → edge self u r.1 r.2) →
  for_routes u rs
    {| unvisited_stations := heap; visited := vis; dist := dist; prev := prev |}
    = Ret {| unvisited_stations := heap; visited := vis; dist := dist; prev := prev |}.
Proof.
  intros HI HJ Hu. induction rs as [|[z w] rs IH]; intros Hedges; [done|].
  simpl. assert (relax u {| unvisited_stations := heap; visited := vis;
                            dist := dist; prev := prev |} (z, w)
                 = Ret {| unvisited_stations := heap; visited := vis;
                          dist := dist; prev := prev |}) as ->.
  { unfold relax. simpl. case_bool_decide as Hz; [|done].
    pose proof (Hedges (z, w) (list_elem_of_here _ _)) as He. simpl in He.
    destruct (inv_fin _ _ _ _ _ _ _ HI u Hu) as [zu Hzu].
    assert (z ∈ dom dist) as Hzdom.
    { rewrite (inv_dom _ _ _ _ _ _ _ HI). destruct He as (s & Hs & Hin).
      by apply (wf_dests _ Hwf _ _ _ _ Hs Hin). }
    apply elem_of_dom in Hzdom as [dz Hdz].
    unfold dict_get. rewrite Hzu, Hdz, !bind_Ret.
    pose proof (HJ _ _ _ Hu He) as Hrel.
    rewrite (dist_at_Some _ _ _ Hzu), (dist_at_Some _ _ _ Hdz) in Hrel.
    unfold num_le in Hrel. by rewrite Hrel. }
  rewrite bind_Ret. apply IH. intros r Hr. by apply Hedges, list_elem_of_further.
Qed.

(** With the queue empty the destination cannot be reached. *)
Lemma Inv_empty_no_walk vis dist prev :
  Inv self o d vis [] dist prev → relaxed self vis dist →
  ∀ p W, ¬ walk self o (d :: p) W.
Proof.
  intros HI HJ p W Hw.
  assert (o ∈ vis) as Ho.
  { destruct (decide (o ∈ vis)) as [|Hno]; [done|].
    pose proof (inv_H _ _ _ _ _ _ _ HI o 0 Hno (inv_o _ _ _ _ _ _ _ HI)) as Hin.
    by apply elem_of_nil in Hin. }
  destruct (walk_lower _ _ _ _ _ _ HI HJ Ho Hw d p eq_refl) as [_ H2].
  destruct (H2 (inv_d _ _ _ _ _ _ _ HI)) as (x & Hx & Hle).
  apply num_le_Int_r in Hle as (zx & Hzx & _). unfold dist_at in Hzx.
  destruct (dist !! x) as [a|] eqn:Ex; simpl in Hzx; [|done]. subst a.
  pose proof (inv_H _ _ _ _ _ _ _ HI x zx Hx Ex) as Hin.
  by apply elem_of_nil in Hin.
Qed.

Context (Hod : o ≠ d).

(** The search loop, started in a state that satisfies the invariant with
    fuel for the entries of the queue, the routes out of the stations not yet
    visited and the stations, answers as [shortest_result] says. *)
Lemma search_spec fuel heap vis ds pv :
  Inv self o d vis heap ds pv → relaxed self vis ds →
  (length heap + pending self vis + size (stations self) ≤ fuel)%nat →
  ∃ r, search_result self o d fuel
         {| unvisited_stations := heap; visited := vis; dist := ds; prev := pv |}
       = Ret r ∧ shortest_result self o d r.
Proof.
  revert heap vis ds pv.
  induction fuel as [|fuel IH]; intros heap vis ds pv HI HJ Hfuel.
  { destruct heap; [|simpl in Hfuel; lia]. simpl. eexists. split; [done|].
    right. split; [done|]. by eapply Inv_empty_no_walk. }
  destruct heap as [|e0 heap0] eqn:Eheap.
  { simpl. eexists. split; [done|]. right. split; [done|]. by eapply Inv_empty_no_walk. }
  rewrite <- Eheap in *.
  assert (heap ≠ []) as Hne by (by rewrite Eheap).
  destruct (heappop_ordered heap (inv_HP _ _ _ _ _ _ _ HI) Hne)
    as (e & heap' & Hpop & Hord & Hperm & Hmin).
  assert (search_result self o d (S fuel)
            {| unvisited_stations := heap; visited := vis; dist := ds; prev := pv |}
          = if bool_decide (e.2 = d) then
              dz ← dict_get ds e.2;
              stops ← _count_stops fuel e.2 o pv 0;
              Ret (dz, Some stops)
            else
              s ← dict_get (stations self) e.2;
              l ← for_routes e.2 (routes s)
                    {| unvisited_stations := heap'; visited := vis;
                       dist := ds; prev := pv |};
              search_result self o d fuel
                {| unvisited_stations := unvisited_stations l;
                   visited := {[e.2]} ∪ visited l;
                   dist := dist l; prev := prev l |}) as ->.
  { simpl. rewrite Eheap at 1. by rewrite Hpop. }
  assert (e ∈ heap) as He by (rewrite Hperm; apply list_elem_of_here).
  destruct (inv_E _ _ _ _ _ _ _ HI e He) as (z & z' & Hz & Hz' & Hle).
  assert (size vis ≤ size (stations self))%nat as Hsize.
  { rewrite <- size_dom. apply subseteq_size. intros v Hv.
    rewrite <- (inv_dom _ _ _ _ _ _ _ HI).
    destruct (inv_fin _ _ _ _ _ _ _ HI v Hv) as [zv Hzv]. by apply elem_of_dom_2 in Hzv. }
  case_bool_decide as Hed.
  - (* the destination is popped *)
    rewrite Hed in Hz'. rewrite Hed. unfold dict_get. rewrite Hz', bind_Ret.
    destruct (inv_R _ _ _ _ _ _ _ HI d z' Hz' (not_eq_sym Hod))
      as (p & w & zp & Hp & HpV & Hedge & Hdp & ->).
    destruct (inv_C _ _ _ _ _ _ _ HI p HpV) as (l & W & Hc).
    pose proof (chain_dist _ _ _ _ _ _ _ _ (inv_o _ _ _ _ _ _ _ HI) Hc) as HW.
    assert (W = zp) as -> by congruence.
    assert (d ∉ p :: l) as Hdl.
    { intros Hin. apply (inv_d _ _ _ _ _ _ _ HI).
      apply elem_of_cons in Hin as [->|Hin]; [done|].
      by apply (chain_sub _ _ _ _ _ _ _ _ Hc). }
    assert (chain self o vis ds pv d (p :: l) (zp + w)) as Hcd.
    { by apply chain_link. }
    assert (length (p :: l) ≤ size vis)%nat as Hlen.
    { apply NoDup_length_size.
      - pose proof (chain_NoDup _ _ _ _ _ _ _ _ Hcd) as Hnd.
        by apply NoDup_cons_1_2 in Hnd.
      - intros x Hx. apply elem_of_cons in Hx as [->|Hx]; [done|].
        by apply (chain_sub _ _ _ _ _ _ _ _ Hc). }
    rewrite (_count_stops_chain _ _ _ _ _ _ _ _ fuel 0 Hcd (not_eq_sym Hod)) by lia.
    rewrite bind_Ret. eexists. split; [done|]. left.
    exists (zp + w), (0 + length (p :: l) - 1)%nat, (p :: l).
    split_and!; try done.
    + intros p' W' Hw.
      destruct (walk_lower _ _ _ _ _ _ HI HJ (inv_oV _ _ _ _ _ _ _ HI p HpV) Hw d p' eq_refl)
        as [_ H2].
      destruct (H2 (inv_d _ _ _ _ _ _ _ HI)) as (x & Hx & Hlex).
      pose proof (pop_nearest _ _ _ _ e HI He Hmin x Hx) as Hnear.
      rewrite Hed, (dist_at_Some _ _ _ Hz') in Hnear.
      pose proof (num_le_trans _ _ _ Hnear Hlex) as Hfin.
      by apply num_le_Int in Hfin.
    + by apply (chain_walk _ _ _ _ _ _ _ _ Hcd).
    + simpl. lia.
    + by apply (chain_NoDup _ _ _ _ _ _ _ _ Hcd).
  - (* another station is popped *)
    set (u := e.2) in *.
    assert (is_Some (stations self !! u)) as [s Hs].
    { apply elem_of_dom. rewrite <- (inv_dom _ _ _ _ _ _ _ HI). by apply elem_of_dom_2 in Hz'. }
    unfold dict_get at 1. rewrite Hs, bind_Ret.
    assert (∀ r, r ∈ routes s → edge self u r.1 r.2) as Hedges.
    { intros [v w] Hr. by exists s. }
    pose proof (Inv_pop _ _ _ _ _ _ HI Hperm Hord Hmin Hed) as HI'.
    fold u in HI'.
    assert (length heap = S (length heap')) as Hlen.
    { by apply Permutation_length in Hperm. }
    destruct (decide (u ∈ vis)) as [Hu|Hu].
    + assert ({[u]} ∪ vis = vis) as Hsame by set_solver.
      rewrite Hsame in HI'.
      rewrite (for_routes_stale u (routes s) heap' vis ds pv HI' HJ Hu Hedges), bind_Ret.
      simpl. rewrite Hsame. apply IH; [done|done|lia].
    + destruct (for_routes_fresh ({[u]} ∪ vis) u (routes s) heap' vis ds pv HI')
        as (h2 & d2 & p2 & Hrun & HI2 & Hle2 & Hkeep2 & Hrel2 & Hlen2);
        [set_solver|set_solver|set_solver| |done|].
      { intros v Hv. apply elem_of_union in Hv as [Hv|Hv].
        - apply elem_of_singleton in Hv as ->. apply num_le_refl.
        - by apply (inv_M _ _ _ _ _ _ _ HI). }
      rewrite Hrun, bind_Ret. simpl. apply IH; [done| |].
      * intros y v w Hy Hyv.
        rewrite (dist_at_keep ds d2 y) by (by apply Hkeep2).
        apply elem_of_union in Hy as [Hy|Hy].
        -- apply elem_of_singleton in Hy as ->.
           destruct Hyv as (s' & Hs' & Hin). simplify_eq.
           rewrite <- (dist_at_keep ds d2 u) by (apply Hkeep2; set_solver).
           by apply (Hrel2 (v, w)).
        -- eapply num_le_trans; [apply Hle2|]. by apply HJ.
      * rewrite (pending_visit self vis u s Hs Hu) in Hfuel. lia.
Qed.

End search.

(** ** The search on maps with any distances *)

Lemma sum_list_with_le {A} (f g : A → nat) l :
  (∀ x, x ∈ l → (f x ≤ g x)%nat) → (sum_list_with f l ≤ sum_list_with g l)%nat.
Proof.
  induction l as [|x l IH]; intros H; simpl; [done|].
  pose proof (H x (list_elem_of_here _ _)).
  assert (sum_list_with f l ≤ sum_list_with g l)%nat; [|lia].
  apply IH. intros y Hy. apply H. by apply list_elem_of_further.
Qed.

Lemma sum_list_with_lt {A} (f g : A → nat) l x0 :
  (∀ x, x ∈ l → (f x ≤ g x)%nat) → x0 ∈ l → (f x0 < g x0)%nat →
  (sum_list_with f l < sum_list_with g l)%nat.
Proof.
  induction l as [|x l IH]; intros H Hin Hlt; simpl.
  - by apply elem_of_nil in Hin.
  - pose proof (H x (list_elem_of_here _ _)).
    assert (∀ y, y ∈ l → (f y ≤ g y)%nat) as Hl.
    { intros y Hy. apply H. by apply list_elem_of_further. }
    apply elem_of_cons in Hin as [->|Hin].
    + pose proof (sum_list_with_le f g l Hl). lia.
    + pose proof (IH Hl Hin Hlt). lia.
Qed.

Lemma sum_list_with_const {A} (c : nat) (l : list A) :
  sum_list_with (λ _, c) l = (c * length l)%nat.
Proof. induction l as [|x l IH]; simpl; lia. Qed.

Lemma num_ltb_le a b b' : num_ltb a b' = true → num_le b' b → num_ltb a b = true.
Proof.
  unfold num_le. destruct a, b, b'; simpl; try done.
  rewrite !bool_decide_eq_true, bool_decide_eq_false. lia.
Qed.

Lemma num_ltb_irrefl a : num_ltb a a = false.
Proof. apply num_le_refl. Qed.

Lemma owed_mono vis dist dist' u r :
  (∀ x, x ∈ vis → dist' !! x = dist !! x) →
  (∀ x, num_le (dist_at dist' x) (dist_at dist x)) →
  (owed vis dist' u r ≤ owed vis dist u r)%nat.
Proof.
  intros Hkeep Hle. unfold owed.
  case_bool_decide; [done|]. case_bool_decide as Hu; [|done].
  rewrite (dist_at_keep dist dist' u) by (by apply Hkeep).
  destruct (num_ltb _ (dist_at dist' r.1)) eqn:E; [|lia].
  by rewrite (num_ltb_le _ _ _ E (Hle _)).
Qed.

Lemma work_mono self vis dist dist' :
  (∀ x, x ∈ vis → dist' !! x = dist !! x) →
  (∀ x, num_le (dist_at dist' x) (dist_at dist x)) →
  (work self vis dist' ≤ work self vis dist)%nat.
Proof.
  intros Hkeep Hle. apply sum_list_with_le. intros ks _.
  apply sum_list_with_le. intros r _. by apply owed_mono.
Qed.

Lemma work_initial self dist : work self ∅ dist = (2 * pending self ∅)%nat.
Proof.
  unfold work, pending.
  induction (map_to_list (stations self)) as [|ks l IH]; simpl; [done|].
  rewrite IH. rewrite (sum_list_with_agree _ (λ _, 2%nat)).
  - rewrite sum_list_with_const. rewrite bool_decide_eq_false_2 by set_solver. lia.
  - intros r _. unfold owed. by rewrite !bool_decide_eq_false_2 by set_solver.
Qed.

(** Visiting [u] for the first time takes what its routes owed. *)
Lemma work_visit self vis dist u s :
  stations self !! u = Some s → u ∉ vis →
  (work self ({[u]} ∪ vis) dist + unvisited_ends vis (routes s) ≤ work self vis dist)%nat.
Proof.
  intros Hu Hv. unfold work.
  rewrite <- !(map_to_list_delete _ _ _ Hu). simpl.
  assert (sum_list_with (owed ({[u]} ∪ vis) dist u) (routes s) + unvisited_ends vis (routes s)
          ≤ sum_list_with (owed vis dist u) (routes s))%nat as H1.
  { unfold unvisited_ends. induction (routes s) as [|r rs IH]; simpl; [done|].
    assert (owed ({[u]} ∪ vis) dist u r + (if bool_decide (r.1 ∈ vis) then 0 else 1)
            ≤ owed vis dist u r)%nat; [|lia].
    unfold owed. rewrite (bool_decide_eq_true_2 (u ∈ {[u]} ∪ vis)) by set_solver.
    rewrite (bool_decide_eq_false_2 (u ∈ vis)) by done.
    destruct (decide (r.1 ∈ vis)) as [Hr|Hr].
    - rewrite (bool_decide_eq_true_2 (r.1 ∈ vis)) by done.
      rewrite bool_decide_eq_true_2 by set_solver. done.
    - rewrite (bool_decide_eq_false_2 (r.1 ∈ vis)) by done.
      case_bool_decide; [lia|]. destruct (num_ltb _ _); lia. }
  assert (sum_list_with
            (λ ks, sum_list_with (owed ({[u]} ∪ vis) dist ks.1) (routes ks.2))
            (map_to_list (delete u (stations self)))
          ≤ sum_list_with
              (λ ks, sum_list_with (owed vis dist ks.1) (routes ks.2))
              (map_to_list (delete u (stations self))))%nat as H2; [|lia].
  apply sum_list_with_le. intros [k s'] Hk. simpl.
  apply elem_of_map_to_list in Hk.
  assert (k ≠ u) as Hku by (intros ->; by rewrite lookup_delete_eq in Hk).
  apply sum_list_with_le. intros r _. unfold owed.
  destruct (decide (r.1 ∈ vis)) as [Hr|Hr].
  - rewrite (bool_decide_eq_true_2 (r.1 ∈ vis)) by done.
    by rewrite bool_decide_eq_true_2 by set_solver.
  - rewrite (bool_decide_eq_false_2 (r.1 ∈ vis)) by done.
    case_bool_decide; [lia|].
    by rewrite (bool_decide_ext (k ∈ {[u]} ∪ vis) (k ∈ vis)) by set_solver.
Qed.

Section reach.

#[local] Arguments num_ltb : simpl never.
#[local] Arguments num_add : simpl never.

Context (self : StationMap) (o d : string).
Context (Hwf : wf self).

(** One turn of the [for] loop at a station [u] that can be reached. *)
Lemma relax_reach u r heap vis dist prev :
  Reach self o heap dist →
  u ∈ dom (stations self) → (∃ p W, walk self o (u :: p) W) →
  edge self u r.1 r.2 →
  ∃ heap' dist' prev',
    relax u {| unvisited_stations := heap; visited := vis; dist := dist; prev := prev |} r
      = Ret {| unvisited_stations := heap'; visited := vis; dist := dist'; prev := prev' |} ∧
    Reach self o heap' dist' ∧
    (∀ x, x ∈ vis → dist' !! x = dist !! x) ∧
    (∀ x, num_le (dist_at dist' x) (dist_at dist x)) ∧
    (length heap' ≤ length heap + unvisited_ends vis [r])%nat ∧
    (u ∈ vis → length heap' + work self vis dist' ≤ length heap + work self vis dist)%nat.
Proof.
  intros HR Hu (pu & Wu & Hwalk) He. destruct r as [z w]. simpl in *.
  assert (∃ heap' dist' prev', Ret {| unvisited_stations := heap; visited := vis;
            dist := dist; prev := prev |} =
          Ret {| unvisited_stations := heap'; visited := vis; dist := dist'; prev := prev' |} ∧
    Reach self o heap' dist' ∧
    (∀ x, x ∈ vis → dist' !! x = dist !! x) ∧
    (∀ x, num_le (dist_at dist' x) (dist_at dist x)) ∧
    (length heap' ≤ length heap + unvisited_ends vis [(z, w)])%nat ∧
    (u ∈ vis → length heap' + work self vis dist' ≤ length heap + work self vis dist)%nat)
    as Hsame.
  { exists heap, dist, prev. split_and!; try done; [|lia]. intros. apply num_le_refl. }
  unfold relax. simpl. case_bool_decide as Hzvis; [|done].
  rewrite <- (reach_dom _ _ _ _ HR) in Hu. apply elem_of_dom in Hu as [du Hdu].
  assert (z ∈ dom dist) as Hzdom.
  { rewrite (reach_dom _ _ _ _ HR). destruct He as (s & Hs & Hin).
    by apply (wf_dests _ Hwf _ _ _ _ Hs Hin). }
  pose proof Hzdom as [dz Hdz]%elem_of_dom.
  unfold dict_get. rewrite Hdu, Hdz, !bind_Ret.
  destruct (num_ltb (num_add du w) dz) eqn:Hlt; [|done]. clear Hsame.
  destruct (heappush_ordered heap (num_add du w, z) (reach_HP _ _ _ _ HR))
    as (heap' & Hpush & Hord & Hperm).
  rewrite Hpush, bind_Ret.
  exists heap', (<[z := num_add du w]> dist), (<[z := u]> prev).
  assert (∀ x, x ∈ vis → <[z := num_add du w]> dist !! x = dist !! x) as Hkeep.
  { intros x Hx. apply lookup_insert_ne. by intros ->. }
  assert (∀ x, num_le (dist_at (<[z := num_add du w]> dist) x) (dist_at dist x)) as Hshrink.
  { intros x. destruct (decide (x = z)) as [->|Hne].
    - rewrite dist_at_insert_eq, (dist_at_Some _ _ _ Hdz). by apply num_lt_le.
    - rewrite dist_at_insert_ne by done. apply num_le_refl. }
  assert (length heap' = S (length heap)) as Hlen.
  { by apply Permutation_length in Hperm. }
  split_and!; try done.
  - split; [| |done].
    + rewrite dom_insert_L, (reach_dom _ _ _ _ HR). rewrite (reach_dom _ _ _ _ HR) in Hzdom.
      set_solver.
    + intros e Hin. rewrite Hperm in Hin. apply elem_of_cons in Hin as [->|Hin].
      * simpl. split; [by rewrite <- (reach_dom _ _ _ _ HR)|].
        exists (u :: pu), (Wu + w). by apply walk_step.
      * by apply (reach_heap _ _ _ _ HR).
  - unfold unvisited_ends. simpl. rewrite bool_decide_eq_false_2 by done. lia.
  - intros Huvis.
    assert (work self vis (<[z := num_add du w]> dist) < work self vis dist)%nat; [|lia].
    destruct He as (s & Hs & Hin).
    apply (sum_list_with_lt _ _ _ (u, s)).
    + intros ks _. apply sum_list_with_le. intros r _. by apply owed_mono.
    + by apply elem_of_map_to_list.
    + simpl. apply (sum_list_with_lt _ _ _ (z, w)); [|done|].
      * intros r _. by apply owed_mono.
      * unfold owed. simpl. rewrite !(bool_decide_eq_false_2 (z ∈ vis)) by done.
        rewrite !(bool_decide_eq_true_2 (u ∈ vis)) by done.
        rewrite dist_at_insert_eq, dist_at_insert_ne by (by intros ->).
        rewrite (dist_at_Some _ _ _ Hdu), (dist_at_Some _ _ _ Hdz), Hlt.
        rewrite num_ltb_irrefl. lia.
Qed.

Lemma for_routes_reach u rs heap vis dist prev :
  Reach self o heap dist →
  u ∈ dom (stations self) → (∃ p W, walk self o (u :: p) W) →
  (∀ r, r ∈ rs → edge self u r.1 r.2) →
  ∃ heap' dist' prev',
    for_routes u rs
      {| unvisited_stations := heap; visited := vis; dist := dist; prev := prev |}
      = Ret {| unvisited_stations := heap'; visited := vis; dist := dist'; prev := prev' |} ∧
    Reach self o heap' dist' ∧
    (∀ x, x ∈ vis → dist' !! x = dist !! x) ∧
    (∀ x, num_le (dist_at dist' x) (dist_at dist x)) ∧
    (length heap' ≤ length heap + unvisited_ends vis rs)%nat ∧
    (u ∈ vis → length heap' + work self vis dist' ≤ length heap + work self vis dist)%nat.
Proof.
  revert heap dist prev.
  induction rs as [|r rs IH]; intros heap dist prev HR Hu Hwalk Hedges.
  - exists heap, dist, prev. simpl. split_and!; try done; [|unfold unvisited_ends; simpl; lia].
    intros. apply num_le_refl.
  - destruct (relax_reach u r heap vis dist prev HR Hu Hwalk)
      as (h1 & d1 & p1 & Hrun1 & HR1 & Hkeep1 & Hle1 & Hlen1 & Hwork1).
    { apply Hedges, list_elem_of_here. }
    destruct (IH h1 d1 p1 HR1 Hu Hwalk)
      as (h2 & d2 & p2 & Hrun2 & HR2 & Hkeep2 & Hle2 & Hlen2 & Hwork2).
    { intros r' Hr'. by apply Hedges, list_elem_of_further. }
    exists h2, d2, p2. simpl. rewrite Hrun1, bind_Ret. split_and!; try done.
    + intros x Hx. rewrite Hkeep2 by done. by apply Hkeep1.
    + intros x. eapply num_le_trans; [apply Hle2|apply Hle1].
    + unfold unvisited_ends in *. simpl in *. lia.
    + intros Huvis. specialize (Hwork1 Huvis). specialize (Hwork2 Huvis). lia.
Qed.

(** When the destination cannot be reached the search loop ends with
    [(math.inf, None)]. *)
Lemma search_unreachable fuel heap vis dist prev :
  Reach self o heap dist → (∀ p W, ¬ walk self o (d :: p) W) →
  (length heap + work self vis dist ≤ fuel)%nat →
  search_result self o d fuel
    {| unvisited_stations := heap; visited := vis; dist := dist; prev := prev |}
  = Ret (Inf, None).
Proof.
  revert heap vis dist prev.
  induction fuel as [|fuel IH]; intros heap vis ds pv HR Hno Hfuel.
  { destruct heap; [done|simpl in Hfuel; lia]. }
  destruct heap as [|e0 heap0] eqn:Eheap; [done|].
  rewrite <- Eheap in *.
  assert (heap ≠ []) as Hne by (by rewrite Eheap).
  destruct (heappop_ordered heap (reach_HP _ _ _ _ HR) Hne)
    as (e & heap' & Hpop & Hord & Hperm & Hmin).
  assert (search_result self o d (S fuel)
            {| unvisited_stations := heap; visited := vis; dist := ds; prev := pv |}
          = if bool_decide (e.2 = d) then
              dz ← dict_get ds e.2;
              stops ← _count_stops fuel e.2 o pv 0;
              Ret (dz, Some stops)
            else
              s ← dict_get (stations self) e.2;
              l ← for_routes e.2 (routes s)
                    {| unvisited_stations := heap'; visited := vis;
                       dist := ds; prev := pv |};
              search_result self o d fuel
                {| unvisited_stations := unvisited_stations l;
                   visited := {[e.2]} ∪ visited l;
                   dist := dist l; prev := prev l |}) as ->.
  { simpl. rewrite Eheap at 1. by rewrite Hpop. }
  assert (e ∈ heap) as He by (rewrite Hperm; apply list_elem_of_here).
  destruct (reach_heap _ _ _ _ HR e He) as [Hedom Hewalk].
  case_bool_decide as Hed.
  { destruct Hewalk as (p & W & Hw). rewrite Hed in Hw. by destruct (Hno p W). }
  set (u := e.2) in *.
  pose proof Hedom as [s Hs]%elem_of_dom.
  unfold dict_get at 1. rewrite Hs, bind_Ret.
  assert (∀ r, r ∈ routes s → edge self u r.1 r.2) as Hedges.
  { intros [v w] Hr. by exists s. }
  assert (Reach self o heap' ds) as HR'.
  { split; [apply (reach_dom _ _ _ _ HR)| |done].
    intros y Hy. apply (reach_heap _ _ _ _ HR). rewrite Hperm. by apply list_elem_of_further. }
  assert (length heap = S (length heap')) as Hlen.
  { by apply Permutation_length in Hperm. }
  destruct (for_routes_reach u (routes s) heap' vis ds pv HR' Hedom Hewalk Hedges)
    as (h2 & d2 & p2 & Hrun & HR2 & Hkeep2 & Hle2 & Hlen2 & Hwork2).
  rewrite Hrun, bind_Ret. simpl. apply IH; [done|done|].
  destruct (decide (u ∈ vis)) as [Hu|Hu].
  - assert ({[u]} ∪ vis = vis) as -> by set_solver.
    specialize (Hwork2 Hu). lia.
  - pose proof (work_visit self vis d2 u s Hs Hu).
    pose proof (work_mono self vis ds d2 Hkeep2 Hle2). lia.
Qed.

End reach.

(** ** The query *)

Lemma nonneg_routes_edge self :
  nonneg_routes self → ∀ u v w, edge self u v w → 0 ≤ w.
Proof.
  intros H u v w (s & Hs & Hin). specialize (H u s Hs). simpl in H.
  rewrite Forall_forall in H. by apply (H (v, w)).
Qed.

Lemma heappush_nil x : heappush [] x = Ret [x].
Proof. reflexivity. Qed.

Lemma initial_dist_lookup self o x :
  initial_dist self o !! x =
    (λ _, if bool_decide (x = o) then Int 0 else Inf) <$> stations self !! x.
Proof.
  unfold initial_dist. rewrite map_lookup_imap. by destruct (stations self !! x).
Qed.

Lemma initial_dist_Int self o x z :
  initial_dist self o !! x = Some (Int z) → x = o ∧ z = 0.
Proof.
  rewrite initial_dist_lookup. destruct (stations self !! x); [|done]. simpl.
  case_bool_decide; naive_solver.
Qed.

Lemma initial_dist_origin self o :
  o ∈ dom (stations self) → initial_dist self o !! o = Some (Int 0).
Proof.
  intros [s Hs]%elem_of_dom. rewrite initial_dist_lookup, Hs. simpl.
  by rewrite bool_decide_eq_true_2.
Qed.

Lemma Inv_initial self o d :
  o ∈ dom (stations self) →
  Inv self o d ∅ [(Int 0, o)] (initial_dist self o) ∅.
Proof.
  intros Ho. split.
  - apply set_eq. intros x. rewrite !elem_of_dom, initial_dist_lookup.
    by rewrite fmap_is_Some.
  - by apply initial_dist_origin.
  - set_solver.
  - set_solver.
  - intros x z Hx. apply initial_dist_Int in Hx. lia.
  - set_solver.
  - set_solver.
  - intros x z _ Hx. apply initial_dist_Int in Hx as [-> ->]. apply list_elem_of_here.
  - intros e He. apply list_elem_of_singleton in He as ->. simpl.
    exists 0, 0. by rewrite initial_dist_origin.
  - intros j a b Hj Ha Hb. apply lookup_lt_Some in Hb. simpl in Hb. lia.
  - intros x z Hx Hne. by apply initial_dist_Int in Hx as [-> ->].
  - set_solver.
Qed.

(** On a well formed map without negative distances a query for two different
    registered stations answers, with [fuel_bound] fuel or more, as
    [shortest_result] says. *)
Lemma find_shortest_route_spec self o d fuel :
  wf self → nonneg_routes self →
  o ∈ dom (stations self) → d ∈ dom (stations self) → o ≠ d →
  (fuel_bound self ≤ fuel)%nat →
  ∃ r, find_shortest_route fuel o d self = (Ret r, self) ∧ shortest_result self o d r.
Proof.
  intros Hwf Hnn Ho Hd Hod Hfuel. rewrite !find_shortest_route_run; unfold find_shortest_route_result, reads.
  pose proof (nonneg_routes_edge self Hnn) as Hnn'.
  rewrite (bool_decide_eq_false_2 (o ∉ _)) by (intros H; by apply H).
  rewrite (bool_decide_eq_false_2 (d ∉ _)) by (intros H; by apply H).
  rewrite (bool_decide_eq_false_2 (o = d)) by done.
  rewrite heappush_nil, bind_Ret.
  destruct (search_spec self o d Hwf Hnn' Hod fuel [(Int 0, o)] ∅ (initial_dist self o) ∅)
    as (r & Hrun & Hr).
  - by apply Inv_initial.
  - intros y z w Hy. set_solver.
  - unfold fuel_bound in Hfuel. simpl. lia.
  - exists r. by rewrite Hrun.
Qed.

(** More fuel does not change an answer. *)
Lemma _count_stops_fuel fuel fuel' v o prev k n :
  (fuel ≤ fuel')%nat → _count_stops fuel v o prev k = Ret n →
  _count_stops fuel' v o prev k = Ret n.
Proof.
  revert fuel' v k. induction fuel as [|fuel IH]; intros fuel' v k Hle Hrun.
  - destruct fuel'; [done|]. simpl in *.
    destruct (dict_get prev v) as [p| |]; simpl in *; try done.
    by case_bool_decide.
  - destruct fuel' as [|fuel']; [lia|]. simpl in *.
    destruct (dict_get prev v) as [p| |]; simpl in *; try done.
    case_bool_decide; [|done]. apply IH; [lia|done].
Qed.

Lemma search_fuel self o d fuel fuel' l r :
  (fuel ≤ fuel')%nat → search_result self o d fuel l = Ret r →
  search_result self o d fuel' l = Ret r.
Proof.
  revert fuel' l. induction fuel as [|fuel IH]; intros fuel' l Hle Hrun.
  - destruct fuel'; [done|]. simpl in *. by destruct (unvisited_stations l).
  - destruct fuel' as [|fuel']; [lia|]. simpl in *.
    destruct (unvisited_stations l) as [|e h]; [done|].
    destruct (heappop (e :: h)) as [[item heap]| |]; simpl in *; try done.
    case_bool_decide.
    + destruct (dict_get (dist l) item.2) as [dz| |]; simpl in *; try done.
      destruct (_count_stops fuel item.2 o (prev l) 0) as [n| |] eqn:Ec; simpl in *; try done.
      rewrite (_count_stops_fuel fuel fuel' _ _ _ _ n) by (done || lia). done.
    + destruct (dict_get (stations self) item.2) as [s| |]; simpl in *; try done.
      destruct (for_routes item.2 (routes s) _) as [l'| |]; simpl in *; try done.
      apply IH; [lia|done].
Qed.

Lemma find_shortest_route_fuel self o d fuel fuel' r :
  (fuel ≤ fuel')%nat → (find_shortest_route fuel o d self).1 = Ret r →
  (find_shortest_route fuel' o d self).1 = Ret r.
Proof.
  intros Hle. rewrite !find_shortest_route_run; unfold find_shortest_route_result, reads. simpl.
  repeat case_bool_decide; try done. by apply search_fuel.
Qed.

(** ** Runs on the example maps *)

Example run_abc_over_B :
  find_shortest_route 10 "A" "C" map_abc = (Ret (Int 10, Some 1%nat), map_abc).
Proof. vm_compute. reflexivity. Qed.

Example run_abc_direct :
  find_shortest_route 10 "A" "B" map_abc = (Ret (Int 5, Some 0%nat), map_abc).
Proof. vm_compute. reflexivity. Qed.

Example run_abc_little_fuel :
  find_shortest_route 3 "A" "C" map_abc = (NoFuel, map_abc).
Proof. vm_compute. reflexivity. Qed.

Example run_apart :
  find_shortest_route 10 "A" "C" map_apart = (Ret (Inf, None), map_apart).
Proof. vm_compute. reflexivity. Qed.

Example run_tie :
  find_shortest_route 10 "A" "D" map_tie = (Ret (Int 2, Some 1%nat), map_tie).
Proof. vm_compute. reflexivity. Qed.

Example run_empty :
  find_shortest_route 10 "X" "Y" StationMap_init
    = (Raise (StationDoesNotExistError "X"), StationMap_init).
Proof. vm_compute. reflexivity. Qed.

Example run_duplicate :
  add_route "A" "B" 7 map_abc = (Raise (DuplicateRouteError "A" "B"), map_abc).
Proof. vm_compute. reflexivity. Qed.

Example run_duplicate_message :
  message (DuplicateRouteError "A" "B") = Some "Route from A to B already exists."%string.
Proof. reflexivity. Qed.

Example run_heappush :
  (h ← heappush [] (Int 3, "a"%string); h ← heappush h (Int 1, "b"%string);
   h ← heappush h (Int 2, "c"%string); heappush h (Int 1, "d"%string))
  = Ret [(Int 1, "b"); (Int 1, "d"); (Int 2, "c"); (Int 3, "a")]%string.
Proof. vm_compute. reflexivity. Qed.

Example run_heappop :
  heappop [(Int 1, "b"); (Int 1, "d"); (Int 2, "c"); (Int 3, "a")]%string
  = Ret ((Int 1, "b"), [(Int 1, "d"); (Int 3, "a"); (Int 2, "c")])%string.
Proof. vm_compute. reflexivity. Qed.

(** ** Facts about the example maps *)

Lemma built_abc : built map_abc.
Proof. exists rows_abc. vm_compute. reflexivity. Defined.

Lemma built_apart : built map_apart.
Proof. exists rows_apart. vm_compute. reflexivity. Defined.

Lemma built_negative : built map_negative.
Proof. exists rows_negative. vm_compute. reflexivity. Defined.

Lemma walk_abc : walk map_abc "A" ["C"; "B"; "A"]%string 10.
Proof.
  change 10 with (0 + 5 + 5). apply walk_step; [apply walk_step; [apply walk_start|]|].
  - eexists. split; [vm_compute; reflexivity|]. apply list_elem_of_here.
  - eexists. split; [vm_compute; reflexivity|]. apply list_elem_of_here.
Defined.

(** ** Properties of [add_route] *)

Lemma with_ends_dests o d self :
  dests_registered self → dests_registered (with_ends o d self).
Proof.
  intros H1 k s v w Hk Hv. rewrite with_ends_dom. rewrite with_ends_lookup in Hk.
  destruct (stations self !! k) eqn:E.
  - simplify_eq. specialize (H1 _ _ _ _ E Hv). set_solver.
  - case_bool_decide; simplify_eq. simpl in Hv. by apply elem_of_nil in Hv.
Qed.

Lemma Station_add_route_dests o d w self :
  dests_registered self → dests_registered (Station_add_route o d w self).2.
Proof.
  intros H1. unfold Station_add_route.
  destruct (stations self !! o) as [so|] eqn:Eo; [|done].
  destruct (stations self !! d) as [sd|] eqn:Ed; [|done].
  case_bool_decide as Hin; [done|].
  intros k s v x Hk Hv. simpl in *. rewrite dom_insert_L.
  destruct (decide (o = k)) as [->|Hne].
  - rewrite lookup_insert_eq in Hk. simplify_eq. simpl in Hv.
    apply elem_of_app in Hv as [Hv|Hv].
    + specialize (H1 _ _ _ _ Eo Hv). set_solver.
    + apply list_elem_of_singleton in Hv. simplify_eq.
      apply elem_of_union_r, elem_of_dom. eauto.
  - rewrite lookup_insert_ne in Hk by done.
    specialize (H1 _ _ _ _ Hk Hv). set_solver.
Qed.

Lemma add_route_dests o d w self :
  dests_registered self → dests_registered (add_route o d w self).2.
Proof.
  intros H. rewrite add_route_unfold.
  by apply Station_add_route_dests, with_ends_dests.
Qed.

(** C4: a query that names a station the map does not have fails with
    [StationDoesNotExistError] for that name, whatever the fuel, so before
    any search: for the origin when the origin is missing, whatever the
    destination is, and for the destination when only that is missing.  The
    message of the error quotes the name. *)
Theorem C4_station_does_not_exist (fuel : nat) (o d : string) (self : StationMap) :
  (o ∉ dom (stations self) →
     find_shortest_route fuel o d self = (Raise (StationDoesNotExistError o), self)) ∧
  (o ∈ dom (stations self) → d ∉ dom (stations self) →
     find_shortest_route fuel o d self = (Raise (StationDoesNotExistError d), self)) ∧
  (∀ n, message (StationDoesNotExistError n)
        = Some ("Station: '" ++ n ++ "' does not exist.")%string).
Proof.
  rewrite !find_shortest_route_run; unfold find_shortest_route_result, reads. split_and!.
  - intros Ho. by rewrite bool_decide_eq_true_2.
  - intros Ho Hd. rewrite bool_decide_eq_false_2 by (intros H; by apply H).
    by rewrite bool_decide_eq_true_2.
  - done.
Qed.

Lemma C4_station_does_not_exist_witness :
  find_shortest_route 0 "X" "Y" StationMap_init
    = (Raise (StationDoesNotExistError "X"), StationMap_init) ∧
  find_shortest_route 0 "A" "Z" map_abc
    = (Raise (StationDoesNotExistError "Z"), map_abc).
Proof.
  split.
  - apply (proj1 (C4_station_does_not_exist 0 "X" "Y" StationMap_init)).
    by_compute.
  - apply (proj1 (proj2 (C4_station_does_not_exist 0 "A" "Z" map_abc))).
    + by_compute.
    + by_compute.
Defined.

(** C5: on a map that has a route from [o] to [d], [add_route o d] raises
    [DuplicateRouteError] whatever the new distance is, and [add_route d o]
    for the reverse pair, when that has no route yet, returns and adds the
    route from [d] to [o] while the route from [o] to [d] stays as it is. *)
Theorem C5_duplicate_route (self : StationMap) (o d : string) :
  built self → has_route self o d →
  (∀ w, (add_route o d w self).1 = Raise (DuplicateRouteError o d)) ∧
  (¬ has_route self d o →
   ∀ w, (add_route d o w self).1 = Ret () ∧
        edge (add_route d o w self).2 d o w ∧
        ∀ w', edge self o d w' ↔ edge (add_route d o w self).2 o d w').
Proof.
  intros Hb (so & Hso & Hin). pose proof (built_wf _ Hb) as Hwf.
  assert (d ∈ dom (stations self)) as [sd Hsd]%elem_of_dom.
  { apply list_elem_of_fmap in Hin as ([v w] & -> & Hin).
    by apply (wf_dests _ Hwf _ _ _ _ Hso Hin). }
  split.
  - intros w. rewrite (add_route_dup o d w self so sd Hso Hsd Hin). simpl.
    by rewrite (wf_name _ Hwf _ _ Hso), (wf_name _ Hwf _ _ Hsd).
  - intros Hno w. destruct (add_route_new d o w self Hno) as (s' & Hs' & ->). simpl.
    rewrite with_ends_id in * by (apply elem_of_dom; eauto).
    assert (o ≠ d) as Hod.
    { intros ->. apply Hno. by exists so. }
    split; [done|]. split.
    + eexists. simpl. rewrite lookup_insert_eq. split; [done|]. simpl.
      apply elem_of_app. right. apply list_elem_of_here.
    + intros w'. unfold edge. simpl. by rewrite lookup_insert_ne.
Qed.

Lemma has_route_abc : has_route map_abc "A" "B".
Proof.
  eexists. split; [vm_compute; reflexivity|]. apply list_elem_of_here.
Defined.

Lemma no_route_abc : ¬ has_route map_abc "B" "A".
Proof.
  intros (s & Hs & Hin). vm_compute in Hs. injection Hs as <-.
  simpl in Hin. set_solver.
Defined.

Lemma C5_duplicate_route_witness :
  (add_route "A" "B" 7 map_abc).1 = Raise (DuplicateRouteError "A" "B") ∧
  (add_route "B" "A" 7 map_abc).1 = Ret () ∧
  edge (add_route "B" "A" 7 map_abc).2 "B" "A" 7 ∧
  (edge map_abc "A" "B" 5 ↔ edge (add_route "B" "A" 7 map_abc).2 "A" "B" 5).
Proof.
  destruct (C5_duplicate_route map_abc "A" "B" built_abc has_route_abc) as [H1 H2].
  split; [exact (H1 7)|].
  destruct (H2 no_route_abc 7) as (H3 & H4 & H5).
  split; [exact H3|]. split; [exact H4|exact (H5 5)].
Defined.

Lemma find_shortest_route_same fuel a self :
  a ∈ dom (stations self) →
  find_shortest_route fuel a a self = (Ret (Int 0, Some 0%nat), self).
Proof.
  intros Ha. rewrite !find_shortest_route_run; unfold find_shortest_route_result, reads.
  rewrite bool_decide_eq_false_2 by (intros H; by apply H).
  by rewrite bool_decide_eq_true_2.
Qed.

(** C6: a query with a registered station as origin and as destination
    answers [(0, 0)] with any fuel, also none: the search loop is not
    entered, whatever routes the station has. *)
Theorem C6_same_station (fuel : nat) (a : string) (self : StationMap) :
  a ∈ dom (stations self) →
  find_shortest_route fuel a a self = (Ret (Int 0, Some 0%nat), self).
Proof. apply find_shortest_route_same. Qed.

Lemma C6_same_station_witness :
  find_shortest_route 0 "A" "A" map_abc = (Ret (Int 0, Some 0%nat), map_abc).
Proof.
  apply (C6_same_station 0 "A" map_abc).
  by_compute.
Defined.

(** C7: in every map built from the empty one by [add_route] calls that
    returned, every station a route leads to is a key of [stations]; and
    [add_route] keeps this, whether it returns or raises. *)
Theorem C7_destinations_registered :
  (∀ self, built self → dests_registered self) ∧
  (∀ self o d w, dests_registered self → dests_registered (add_route o d w self).2).
Proof.
  split.
  - intros self Hb. apply wf_dests, built_wf, Hb.
  - intros self o d w. apply add_route_dests.
Qed.

Lemma C7_destinations_registered_witness :
  dests_registered map_abc ∧ dests_registered (add_route "C" "D" 7 map_abc).2.
Proof.
  pose proof (proj1 C7_destinations_registered map_abc built_abc) as H.
  split; [exact H|].
  exact (proj2 C7_destinations_registered map_abc "C" "D" 7 H).
Defined.

(** C9: a query leaves the map as it was, whether it answers with a route,
    with [(math.inf, None)], or raises. *)
Theorem C9_query_keeps_map (fuel : nat) (o d : string) (self : StationMap) :
  (find_shortest_route fuel o d self).2 = self.
Proof.
  revert self. change (keeps (find_shortest_route fuel o d)). unfold find_shortest_route.
  apply keeps_bind; [apply keeps_get_self|intros self].
  case_bool_decide; [apply keeps_local|].
  apply keeps_bind; [apply keeps_get_self|intros self'].
  case_bool_decide; [apply keeps_local|].
  case_bool_decide; [apply keeps_local|].
  apply keeps_bind; [apply keeps_get_self|intros self''].
  apply keeps_bind; [apply keeps_local|intros heap].
  apply search_keeps.
Qed.

(** C10: when [add_route] raises on a built map, the error is
    [DuplicateRouteError], both stations were registered before the call, and
    the map is left as it was. *)
Theorem C10_duplicate_keeps_map (self : StationMap) (o d : string) (w : Z) (e : exn) :
  built self → (add_route o d w self).1 = Raise e →
  (add_route o d w self).2 = self ∧ e = DuplicateRouteError o d ∧
  o ∈ dom (stations self) ∧ d ∈ dom (stations self).
Proof.
  intros Hb. pose proof (built_wf _ Hb) as Hwf.
  assert (has_route self o d ∨ ¬ has_route self o d) as [Hr|Hr].
  { destruct (stations self !! o) as [so|] eqn:Hso.
    - destruct (decide (d ∈ (routes so).*1)) as [Hin|Hin]; [left; by exists so|].
      right. intros (s & Hs & Hi). by simplify_eq.
    - right. intros (s & Hs & Hi). by simplify_eq. }
  - destruct Hr as (so & Hso & Hin).
    assert (d ∈ dom (stations self)) as Hd.
    { apply list_elem_of_fmap in Hin as ([v x] & -> & Hin).
      by apply (wf_dests _ Hwf _ _ _ _ Hso Hin). }
    pose proof Hd as [sd Hsd]%elem_of_dom.
    rewrite (add_route_dup o d w self so sd Hso Hsd Hin). simpl.
    rewrite (wf_name _ Hwf _ _ Hso), (wf_name _ Hwf _ _ Hsd).
    intros [= <-]. split_and!; try done. by apply elem_of_dom_2 in Hso.
  - destruct (add_route_new o d w self Hr) as (s' & _ & ->). done.
Qed.

Lemma C10_duplicate_keeps_map_witness :
  (add_route "A" "B" 7 map_abc).2 = map_abc ∧
  DuplicateRouteError "A" "B" = DuplicateRouteError "A" "B" ∧
  "A" ∈ dom (stations map_abc) ∧ "B" ∈ dom (stations map_abc).
Proof.
  apply (C10_duplicate_keeps_map map_abc "A" "B" 7 _ built_abc).
  vm_compute. reflexivity.
Defined.

(** ** Properties of the query *)

Lemma find_shortest_route_reads fuel o d self :
  find_shortest_route fuel o d self = ((find_shortest_route fuel o d self).1, self).
Proof. by rewrite find_shortest_route_run. Qed.

Lemma find_shortest_route_from_bound self o d r :
  find_shortest_route (fuel_bound self) o d self = (Ret r, self) →
  ∀ fuel, (fuel_bound self ≤ fuel)%nat →
    find_shortest_route fuel o d self = (Ret r, self).
Proof.
  intros Hrun fuel Hfuel. rewrite find_shortest_route_reads. f_equal.
  apply (find_shortest_route_fuel _ _ _ (fuel_bound self)); [done|]. by rewrite Hrun.
Qed.

(** C1, amended: on a built map without negative distances, for two
    different registered stations with a directed path from the first to the
    second, the query answers [(distance, stop_count)] where [distance] is the
    least sum of distances over all directed paths from origin to destination,
    and a path with that sum has [stop_count + 1] routes (and passes no
    station twice). *)
Theorem C1_shortest_route (self : StationMap) (o d : string) :
  built self → nonneg_routes self → o ≠ d →
  o ∈ dom (stations self) → d ∈ dom (stations self) →
  (∃ p W, walk self o (d :: p) W) →
  answers_shortest self o d.
Proof.
  intros Hb Hnn Hod Ho Hd (p & W & Hw).
  destruct (find_shortest_route_spec self o d (fuel_bound self) (built_wf _ Hb) Hnn Ho Hd Hod)
    as (r & Hrun & [(zd & stops & p' & -> & Hmin & Hp' & Hlen & Hnd)|[_ Hno]]); [done| |].
  - exists zd, stops. split; [by apply find_shortest_route_from_bound|].
    split; [done|]. exists p'. split; [done|]. split; [lia|done].
  - by destruct (Hno p W).
Qed.

Lemma nonneg_abc : nonneg_routes map_abc.
Proof. by_compute. Defined.

Lemma C1_shortest_route_witness : answers_shortest map_abc "A" "C".
Proof.
  apply (C1_shortest_route map_abc "A" "C" built_abc nonneg_abc).
  - discriminate.
  - by_compute.
  - by_compute.
  - exists ["B"; "A"]%string, 10. exact walk_abc.
Defined.

Lemma walk_negative : walk map_negative "A" ["B"; "C"; "A"]%string (-3).
Proof.
  change (-3) with (0 + 2 + -5). apply walk_step; [apply walk_step; [apply walk_start|]|].
  - eexists. split; [vm_compute; reflexivity|]. apply list_elem_of_further, list_elem_of_here.
  - eexists. split; [vm_compute; reflexivity|]. apply list_elem_of_here.
Qed.

Lemma find_negative :
  find_shortest_route (fuel_bound map_negative) "A" "B" map_negative
    = (Ret (Int 1, Some 0%nat), map_negative).
Proof. vm_compute. reflexivity. Qed.

(** C1 without the condition on the distances fails on [map_negative]: the
    map is built, A and B are two different registered stations and there is
    a directed path from A to B, yet the query from A to B answers [(1, 0)]
    while the path over C has the sum [-3]. *)
Lemma C1_shortest_route_counterexample :
  (built map_negative ∧ "A" ≠ "B" ∧
   "A" ∈ dom (stations map_negative) ∧ "B" ∈ dom (stations map_negative) ∧
   ∃ p W, walk map_negative "A" ("B" :: p) W) ∧
  find_shortest_route (fuel_bound map_negative) "A" "B" map_negative
    = (Ret (Int 1, Some 0%nat), map_negative) ∧
  walk map_negative "A" ["B"; "C"; "A"]%string (-3) ∧
  ¬ answers_shortest map_negative "A" "B".
Proof.
  split_and!.
  - exact built_negative.
  - discriminate.
  - by_compute.
  - by_compute.
  - exists ["C"; "A"]%string, (-3). exact walk_negative.
  - exact find_negative.
  - exact walk_negative.
  - intros (distance & stops & Hrun & Hmin & _).
    specialize (Hrun (fuel_bound map_negative) (le_n _)).
    rewrite find_negative in Hrun. injection Hrun as <- _.
    specialize (Hmin _ _ walk_negative). lia.
Qed.

(** C2: on a built map without negative distances a query for two
    registered stations returns: there is a bound on the turns of its loops,
    [fuel_bound], with which the query answers with a distance and a stop
    count or with [(math.inf, None)], and raises nothing. *)
Theorem C2_query_terminates (self : StationMap) (o d : string) :
  built self → nonneg_routes self →
  o ∈ dom (stations self) → d ∈ dom (stations self) →
  ∃ r, (∀ fuel, (fuel_bound self ≤ fuel)%nat →
          find_shortest_route fuel o d self = (Ret r, self)) ∧
       (r = (Inf, None) ∨ ∃ z n, r = (Int z, Some n)).
Proof.
  intros Hb Hnn Ho Hd. destruct (decide (o = d)) as [->|Hod].
  - exists (Int 0, Some 0%nat). split; [|right; by exists 0, 0%nat].
    intros fuel _. by apply find_shortest_route_same.
  - destruct (find_shortest_route_spec self o d (fuel_bound self) (built_wf _ Hb) Hnn Ho Hd Hod)
      as (r & Hrun & Hr); [done|].
    exists r. split; [by apply find_shortest_route_from_bound|].
    destruct Hr as [(zd & stops & _ & -> & _)|[-> _]]; [right; by exists zd, stops|by left].
Qed.

Lemma nonneg_apart : nonneg_routes map_apart.
Proof. by_compute. Defined.

Lemma C2_query_terminates_witness :
  ∃ r, (∀ fuel, (fuel_bound map_apart ≤ fuel)%nat →
          find_shortest_route fuel "A" "C" map_apart = (Ret r, map_apart)) ∧
       (r = (Inf, None) ∨ ∃ z n, r = (Int z, Some n)).
Proof.
  apply (C2_query_terminates map_apart "A" "C" built_apart nonneg_apart).
  - by_compute.
  - by_compute.
Defined.

Lemma Reach_initial self o :
  o ∈ dom (stations self) → Reach self o [(Int 0, o)] (initial_dist self o).
Proof.
  intros Ho. split.
  - apply set_eq. intros x. rewrite !elem_of_dom, initial_dist_lookup.
    by rewrite fmap_is_Some.
  - intros e He. apply list_elem_of_singleton in He as ->. simpl.
    split; [done|]. exists [], 0. constructor.
  - intros j a b Hj Ha Hb. apply lookup_lt_Some in Hb. simpl in Hb. lia.
Qed.

(** C3: on a built map, whatever its distances are, a query for two
    different registered stations with no directed path from the first to the
    second answers [(math.inf, None)] and raises nothing. *)
Theorem C3_unreachable (self : StationMap) (o d : string) :
  built self → o ≠ d →
  o ∈ dom (stations self) → d ∈ dom (stations self) →
  (∀ p W, ¬ walk self o (d :: p) W) →
  ∀ fuel, (fuel_bound self ≤ fuel)%nat →
    find_shortest_route fuel o d self = (Ret (Inf, None), self).
Proof.
  intros Hb Hod Ho Hd Hno fuel Hfuel. rewrite !find_shortest_route_run; unfold find_shortest_route_result, reads.
  rewrite (bool_decide_eq_false_2 (o ∉ _)) by (intros H; by apply H).
  rewrite (bool_decide_eq_false_2 (d ∉ _)) by (intros H; by apply H).
  rewrite (bool_decide_eq_false_2 (o = d)) by done.
  rewrite heappush_nil, bind_Ret.
  rewrite (search_unreachable self o d (built_wf _ Hb)); [done| |done|].
  - by apply Reach_initial.
  - rewrite work_initial. unfold fuel_bound in Hfuel. simpl. lia.
Qed.

Lemma no_walk_apart : ∀ p W, ¬ walk map_apart "A" ("C"%string :: p) W.
Proof.
  assert (∀ p W, walk map_apart "A" p W →
            ∀ y p', p = y :: p' → y = "A"%string ∨ y = "B"%string) as H.
  { induction 1 as [|y z p w W Hw IH He]; intros y' p' Heq; simplify_eq; [by left|].
    destruct (IH _ _ eq_refl) as [->| ->]; destruct He as (s & Hs & Hin);
      vm_compute in Hs; injection Hs as <-; simpl in Hin.
    - apply list_elem_of_singleton in Hin. injection Hin as -> _. by right.
    - by apply elem_of_nil in Hin. }
  intros p W Hw. by destruct (H _ _ Hw _ _ eq_refl).
Defined.

Lemma C3_unreachable_witness :
  find_shortest_route (fuel_bound map_apart) "A" "C" map_apart
    = (Ret (Inf, None), map_apart).
Proof.
  apply (C3_unreachable map_apart "A" "C" built_apart).
  - discriminate.
  - by_compute.
  - by_compute.
  - exact no_walk_apart.
  - apply le_n.
Defined.

(** ** No comparison fails *)

Lemma bind_not_TypeError {A B} (m : outcome A) (f : A → outcome B) :
  m ≠ Raise TypeError → (∀ a, f a ≠ Raise TypeError) → m ≫= f ≠ Raise TypeError.
Proof.
  intros Hm Hf. destruct m; [apply Hf| |done].
  rewrite bind_Raise. intros [= ->]. by apply Hm.
Qed.

Lemma list_get_not_TypeError {A} (l : list A) i : list_get l i ≠ Raise TypeError.
Proof. unfold list_get. by destruct (l !! i). Qed.

Lemma list_set_not_TypeError {A} (l : list A) i x : list_set l i x ≠ Raise TypeError.
Proof. unfold list_set. by case_bool_decide. Qed.

Lemma list_pop_not_TypeError {A} (l : list A) : list_pop l ≠ Raise TypeError.
Proof. unfold list_pop. by destruct (last l). Qed.

Lemma dict_get_not_TypeError {V} (m : gmap string V) k : dict_get m k ≠ Raise TypeError.
Proof. unfold dict_get. by destruct (m !! k). Qed.

Lemma entry_lt_not_TypeError a b : entry_lt a b ≠ Raise TypeError.
Proof. by rewrite entry_lt_total. Qed.

Create HintDb no_type_error.

#[local] Hint Resolve list_get_not_TypeError list_set_not_TypeError
  list_pop_not_TypeError dict_get_not_TypeError entry_lt_not_TypeError
  : no_type_error.

(** Goes through the binds and branches of a computation whose parts are
    known not to raise [TypeError]. *)
Ltac no_type_error :=
  repeat first
    [ done
    | solve [auto with no_type_error]
    | apply bind_not_TypeError; [|intros ?]
    | case_bool_decide
    | match goal with
      | |- (if ?b then _ else _) ≠ _ => destruct b
      | |- (let '(_, _) := ?x in _) ≠ _ => destruct x
      | |- match ?x with _ => _ end ≠ _ => destruct x
      end ].

Lemma _siftdown_loop_not_TypeError n heap newitem startpos pos :
  _siftdown_loop n heap newitem startpos pos ≠ Raise TypeError.
Proof.
  revert heap pos. induction n as [|n IH]; intros heap pos;
    rewrite _siftdown_loop_eq; no_type_error.
Qed.

#[local] Hint Resolve _siftdown_loop_not_TypeError : no_type_error.

Lemma _siftdown_not_TypeError heap startpos pos :
  _siftdown heap startpos pos ≠ Raise TypeError.
Proof. unfold _siftdown. no_type_error. Qed.

#[local] Hint Resolve _siftdown_not_TypeError : no_type_error.

Lemma _siftup_loop_not_TypeError n heap endpos pos :
  _siftup_loop n heap endpos pos ≠ Raise TypeError.
Proof.
  revert heap pos. induction n as [|n IH]; intros heap pos;
    rewrite _siftup_loop_eq; no_type_error.
Qed.

#[local] Hint Resolve _siftup_loop_not_TypeError : no_type_error.

Lemma _siftup_not_TypeError heap pos : _siftup heap pos ≠ Raise TypeError.
Proof. unfold _siftup. no_type_error. Qed.

#[local] Hint Resolve _siftup_not_TypeError : no_type_error.

Lemma heappush_not_TypeError heap item : heappush heap item ≠ Raise TypeError.
Proof. unfold heappush. no_type_error. Qed.

Lemma heappop_not_TypeError heap : heappop heap ≠ Raise TypeError.
Proof. unfold heappop. no_type_error. Qed.

#[local] Hint Resolve heappush_not_TypeError heappop_not_TypeError : no_type_error.

Lemma _count_stops_not_TypeError fuel v o prev k :
  _count_stops fuel v o prev k ≠ Raise TypeError.
Proof.
  revert v k. induction fuel as [|fuel IH]; intros v k; simpl; no_type_error.
Qed.

Lemma relax_not_TypeError u l r : relax u l r ≠ Raise TypeError.
Proof. unfold relax. no_type_error. Qed.

#[local] Hint Resolve _count_stops_not_TypeError relax_not_TypeError : no_type_error.

Lemma for_routes_not_TypeError u rs l : for_routes u rs l ≠ Raise TypeError.
Proof. revert l. induction rs as [|r rs IH]; intros l; simpl; no_type_error. Qed.

#[local] Hint Resolve for_routes_not_TypeError : no_type_error.

Lemma search_not_TypeError self o d fuel l : search_result self o d fuel l ≠ Raise TypeError.
Proof.
  revert l. induction fuel as [|fuel IH]; intros l; simpl;
    destruct (unvisited_stations l); no_type_error.
Qed.

(** C8: the order of the queue never fails.  Comparing two stations with
    [<] answers [False] through the reflected [__gt__], which answers [False]
    for every pair, so neither station is greater; comparing two entries
    answers whether the first distance is smaller, and [False] for entries of
    the same distance; so neither [heappop] nor a query as a whole raises
    [TypeError], on any queue and any map. *)
Theorem C8_queue_order :
  (∀ a b, station_lt a b = Ret false ∧ Station__gt__ a b = Some false) ∧
  (∀ x y : entry, entry_lt x y = Ret (num_ltb x.1 y.1)) ∧
  (∀ dz a b, entry_lt (dz, a) (dz, b) = Ret false) ∧
  (∀ heap, heappop heap ≠ Raise TypeError) ∧
  (∀ fuel o d self, (find_shortest_route fuel o d self).1 ≠ Raise TypeError).
Proof.
  split_and!.
  - done.
  - apply entry_lt_total.
  - intros dz a b. rewrite entry_lt_total. simpl. by rewrite num_ltb_irrefl.
  - apply heappop_not_TypeError.
  - intros fuel o d self. rewrite !find_shortest_route_run; unfold find_shortest_route_result, reads. simpl.
    repeat case_bool_decide; try done. apply search_not_TypeError.
Qed.

(** * More about the program *)

(** ** [add_route] on any map *)

Lemma with_ends_edge o d self u v w :
  edge (with_ends o d self) u v w ↔ edge self u v w.
Proof.
  unfold edge. split; intros (s & Hs & Hin).
  - rewrite with_ends_lookup in Hs. destruct (stations self !! u) eqn:E.
    + simplify_eq. by exists s.
    + case_bool_decide; simplify_eq. simpl in Hin. by apply elem_of_nil in Hin.
  - exists s. by rewrite with_ends_lookup, Hs.
Qed.

Lemma with_ends_has_route o d self u v :
  has_route (with_ends o d self) u v ↔ has_route self u v.
Proof.
  unfold has_route. split; intros (s & Hs & Hin).
  - rewrite with_ends_lookup in Hs. destruct (stations self !! u) eqn:E.
    + simplify_eq. by exists s.
    + case_bool_decide; simplify_eq. simpl in Hin. by apply elem_of_nil in Hin.
  - exists s. by rewrite with_ends_lookup, Hs.
Qed.

Lemma has_route_edge self u v : has_route self u v ↔ ∃ w, edge self u v w.
Proof.
  unfold has_route, edge. split.
  - intros (s & Hs & Hin). apply list_elem_of_fmap in Hin as ([v' w] & -> & Hin).
    exists w, s. done.
  - intros (w & s & Hs & Hin). exists s. split; [done|].
    apply list_elem_of_fmap. by exists (v, w).
Qed.

(** The outcome of [add_route] on any map: it raises when the route is there,
    and else returns a map with that one route more. *)
Lemma add_route_cases o d w self :
  (has_route self o d ∧ ∃ a b, add_route o d w self = (Raise (DuplicateRouteError a b), with_ends o d self)) ∨
  (¬ has_route self o d ∧
   (add_route o d w self).1 = Ret () ∧
   dom (stations (add_route o d w self).2) = {[o; d]} ∪ dom (stations self) ∧
   ∀ u v x, edge (add_route o d w self).2 u v x ↔ edge self u v x ∨ (u = o ∧ v = d ∧ x = w)).
Proof.
  assert (is_Some (stations (with_ends o d self) !! o)) as [so Ho].
  { apply elem_of_dom. rewrite with_ends_dom. set_solver. }
  assert (is_Some (stations (with_ends o d self) !! d)) as [sd Hd].
  { apply elem_of_dom. rewrite with_ends_dom. set_solver. }
  destruct (decide (d ∈ (routes so).*1)) as [Hin|Hin].
  - left. split.
    + apply (with_ends_has_route o d). by exists so.
    + exists (name so), (name sd). rewrite add_route_unfold. fold (with_ends o d self).
      unfold Station_add_route. rewrite Ho, Hd. by rewrite bool_decide_eq_true_2.
  - right. assert (¬ has_route self o d) as Hno.
    { intros Hr. apply (with_ends_has_route o d) in Hr as (s & Hs & Hi). by simplify_eq. }
    split; [done|]. destruct (add_route_new o d w self Hno) as (so' & Hso' & ->).
    simplify_eq. simpl. split; [done|]. split.
    + rewrite dom_insert_L, with_ends_dom. set_solver.
    + intros u v x. rewrite <- (with_ends_edge o d self u v x). unfold edge. simpl.
      destruct (decide (u = o)) as [->|Hne].
      * rewrite lookup_insert_eq, Ho. split.
        -- intros (s & Hs & Hi). simplify_eq. simpl in Hi.
           apply elem_of_app in Hi as [Hi|Hi]; [left; by exists so|].
           apply list_elem_of_singleton in Hi. simplify_eq. by right.
        -- intros [(s & Hs & Hi)|(_ & -> & ->)]; eexists; (split; [done|]); simpl;
             apply elem_of_app; [left; by simplify_eq|right; apply list_elem_of_here].
      * rewrite lookup_insert_ne by done. split; [by left|].
        intros [H|(? & _)]; [done|by subst].
Qed.

Lemma add_route_Ret self self' o d w :
  add_route o d w self = (Ret (), self') →
  ¬ has_route self o d ∧
  dom (stations self') = {[o; d]} ∪ dom (stations self) ∧
  ∀ u v x, edge self' u v x ↔ edge self u v x ∨ (u = o ∧ v = d ∧ x = w).
Proof.
  intros Hrun. destruct (add_route_cases o d w self) as [(_ & a & b & Hr)|(Hno & _ & Hdom & He)].
  - rewrite Hrun in Hr. by simplify_eq.
  - rewrite Hrun in Hdom, He. done.
Qed.

(** X1: when [add_route o d w] returns, on any map, there was no route from
    [o] to [d]; the stations of the new map are the old ones with [o] and [d],
    and its routes are the old ones, each with its distance, and the route
    from [o] to [d] with distance [w]. *)
Theorem add_route_returns (self self' : StationMap) (o d : string) (w : Z) :
  add_route o d w self = (Ret (), self') →
  ¬ has_route self o d ∧
  dom (stations self') = {[o; d]} ∪ dom (stations self) ∧
  ∀ u v x, edge self' u v x ↔ edge self u v x ∨ (u = o ∧ v = d ∧ x = w).
Proof. apply add_route_Ret. Qed.

Lemma add_route_returns_witness :
  ¬ has_route map_abc "B" "A" ∧
  dom (stations (add_route "B" "A" 7 map_abc).2) = {[ "B"; "A" ]} ∪ dom (stations map_abc) ∧
  ∀ u v x, edge (add_route "B" "A" 7 map_abc).2 u v x
           ↔ edge map_abc u v x ∨ (u = "B" ∧ v = "A" ∧ x = 7).
Proof.
  apply (add_route_returns map_abc (add_route "B" "A" 7 map_abc).2 "B" "A" 7).
  vm_compute. reflexivity.
Defined.

(** ** Built maps *)

Lemma NoDup_fst_functional {A B} (l : list (A * B)) x y1 y2 :
  NoDup l.*1 → (x, y1) ∈ l → (x, y2) ∈ l → y1 = y2.
Proof.
  induction l as [|[a b] l IH]; intros Hnd H1 H2; [by apply elem_of_nil in H1|].
  simpl in Hnd. apply NoDup_cons in Hnd as [Hna Hnd].
  apply elem_of_cons in H1 as [H1|H1]; apply elem_of_cons in H2 as [H2|H2]; simplify_eq.
  - done.
  - destruct Hna. apply list_elem_of_fmap. by exists (a, y2).
  - destruct Hna. apply list_elem_of_fmap. by exists (a, y1).
  - by apply IH.
Qed.

(** X2: on a built map there is one route at most from a station to another:
    two routes from [u] to [v] have the same distance. *)
Theorem built_route_unique (self : StationMap) (u v : string) (w w' : Z) :
  built self → edge self u v w → edge self u v w' → w = w'.
Proof.
  intros Hb (s & Hs & Hin) (s' & Hs' & Hin'). pose proof (built_wf _ Hb) as Hwf.
  simplify_eq. apply (NoDup_fst_functional (routes s) v w w'); [|done..].
  by apply (wf_nodup _ Hwf u).
Qed.

Lemma edge_abc : edge map_abc "A" "B" 5.
Proof. eexists. split; [vm_compute; reflexivity|]. apply list_elem_of_here. Defined.

Lemma built_route_unique_witness :
  edge map_abc "A" "B" 5 ∧ ∀ w, edge map_abc "A" "B" w → w = 5.
Proof.
  split; [exact edge_abc|]. intros w Hw.
  exact (built_route_unique map_abc "A" "B" w 5 built_abc Hw edge_abc).
Defined.

(** ** [_count_stops] *)

Lemma _count_stops_eq fuel v o prev k :
  _count_stops fuel v o prev k =
    p ← dict_get prev v;
    if bool_decide (p ≠ o) then
      match fuel with
      | O => NoFuel
      | S fuel => _count_stops fuel p o prev (k + 1)
      end
    else Ret k.
Proof. by destruct fuel. Qed.

(** X3: [_count_stops] returns exactly when the predecessor links lead from
    the destination to the origin, and then it returns the number of stations
    strictly between the two (added to the count it starts with). *)
Theorem _count_stops_hops (fuel : nat) (v o : string) (prev : gmap string string)
    (k m : nat) :
  _count_stops fuel v o prev k = Ret m ↔
  ∃ n, hops prev o v n ∧ m = (k + n)%nat ∧ (n ≤ fuel)%nat.
Proof.
  revert v k. induction fuel as [|fuel IH]; intros v k; rewrite _count_stops_eq;
    unfold dict_get; destruct (prev !! v) as [p|] eqn:Hp; rewrite ?bind_Ret, ?bind_Raise.
  - case_bool_decide as Hpo; (split; [intros Hrun|intros (n & Hh & -> & Hn)]); try done.
    + destruct Hh; simplify_eq. lia.
    + simplify_eq. exists 0%nat. split; [by constructor|]. split; lia.
    + f_equal. destruct Hh; simplify_eq; lia.
  - split; [done|]. intros (n & Hh & _). destruct Hh; simplify_eq.
  - case_bool_decide as Hpo; (split; [intros Hrun|intros (n & Hh & -> & Hn)]).
    + apply IH in Hrun as (n & Hh & -> & Hn). exists (S n).
      split; [by apply (hops_more _ _ _ p)|]. split; lia.
    + destruct Hh as [v Hv|v p' n Hv Hne Hh]; simplify_eq.
      apply IH. exists n. split; [done|]. split; lia.
    + simplify_eq. exists 0%nat. split; [by constructor|]. split; lia.
    + f_equal. destruct Hh; simplify_eq; lia.
  - split; [done|]. intros (n & Hh & _). destruct Hh; simplify_eq.
Qed.

Lemma _count_stops_closed (S : gset string) v o prev :
  v ∈ S → (∀ x, x ∈ S → ∃ p, prev !! x = Some p ∧ p ≠ o ∧ p ∈ S) →
  ∀ fuel k, _count_stops fuel v o prev k = NoFuel.
Proof.
  intros Hv Hclosed fuel. revert v Hv.
  induction fuel as [|fuel IH]; intros v Hv k; rewrite _count_stops_eq;
    destruct (Hclosed v Hv) as (p & Hp & Hpo & HpS);
    unfold dict_get; rewrite Hp, bind_Ret, bool_decide_eq_true_2 by done; [done|].
  by apply IH.
Qed.

(** X4: [_count_stops] does not return when the predecessor links stay in a
    set of stations that have predecessors other than the origin, as when a
    station is its own predecessor: then no fuel is enough. *)
Theorem _count_stops_cycle (S : gset string) (v o : string)
    (prev : gmap string string) :
  v ∈ S → (∀ x, x ∈ S → ∃ p, prev !! x = Some p ∧ p ≠ o ∧ p ∈ S) →
  ∀ fuel k, _count_stops fuel v o prev k = NoFuel.
Proof. apply _count_stops_closed. Qed.

Lemma _count_stops_cycle_witness :
  ∃ prev : gmap string string,
    prev !! "C"%string = Some "B"%string ∧ prev !! "B"%string = Some "B"%string ∧
    _count_stops 100 "C" "A" prev 0 = NoFuel.
Proof.
  exists (<["C"%string := "B"%string]> (<["B"%string := "B"%string]> ∅)).
  split; [reflexivity|]. split; [reflexivity|].
  apply (_count_stops_cycle {["B"; "C"]}%string).
  - set_solver.
  - intros x Hx. exists "B"%string. split; [|split; [discriminate|set_solver]].
    apply elem_of_union in Hx as [Hx|Hx]; apply elem_of_singleton in Hx as ->; reflexivity.
Defined.

(** ** The answers of the search with any distances *)

Section any.

#[local] Arguments num_ltb : simpl never.
#[local] Arguments num_add : simpl never.

Context (self : StationMap) (o d : string).
Context (Hwf : wf self).

Lemma relax_any V u r heap vis dist prev :
  Any self o d V heap dist prev →
  u ∈ V → vis ⊆ V →
  edge self u r.1 r.2 →
  ∃ heap' dist' prev',
    relax u {| unvisited_stations := heap; visited := vis; dist := dist; prev := prev |} r
      = Ret {| unvisited_stations := heap'; visited := vis; dist := dist'; prev := prev' |} ∧
    Any self o d V heap' dist' prev' ∧
    (∀ x z, dist !! x = Some (Int z) → ∃ z', dist' !! x = Some (Int z')) ∧
    (∃ z, dist' !! r.1 = Some (Int z)).
Proof.
  intros HA Hu Hvis He. destruct r as [v w]. simpl in *.
  destruct (any_vis _ _ _ _ _ _ _ HA u Hu) as [zu Hzu].
  assert (v ∈ dom dist) as Hvdom.
  { rewrite (any_dom _ _ _ _ _ _ _ HA). destruct He as (s & Hs & Hin).
    by apply (wf_dests _ Hwf _ _ _ _ Hs Hin). }
  pose proof Hvdom as [dv Hdv]%elem_of_dom.
  unfold relax. simpl. case_bool_decide as Hvvis.
  2:{ exists heap, dist, prev. split_and!; try done; [by eauto|].
      apply (any_vis _ _ _ _ _ _ _ HA). by apply Hvis. }
  unfold dict_get. rewrite Hzu, Hdv, !bind_Ret.
  change (num_add (Int zu) w) with (Int (zu + w)).
  destruct (num_ltb (Int (zu + w)) dv) eqn:Hlt.
  2:{ exists heap, dist, prev. split_and!; try done; [by eauto|].
      destruct dv as [zv|]; [by exists zv|done]. }
  destruct (heappush_ordered heap (Int (zu + w), v) (any_HP _ _ _ _ _ _ _ HA))
    as (heap' & Hpush & Hord & Hperm).
  rewrite Hpush, bind_Ret.
  exists heap', (<[v := Int (zu + w)]> dist), (<[v := u]> prev).
  assert (∀ x z, dist !! x = Some (Int z) →
            ∃ z', <[v := Int (zu + w)]> dist !! x = Some (Int z')) as Hfin.
  { intros x z Hx. destruct (decide (x = v)) as [->|Hne].
    - rewrite lookup_insert_eq. by eauto.
    - rewrite lookup_insert_ne by done. by eauto. }
  split; [done|]. split; [|split; [done|rewrite lookup_insert_eq; by eauto]].
  destruct HA as [Hdom Ho Hd Hwalk Hprev Hvisf Hheap Hent HHP]. split; try done.
  - rewrite dom_insert_L, Hdom. rewrite Hdom in Hvdom. set_solver.
  - destruct Ho as [zo Hzo]. by apply (Hfin o zo).
  - intros x z Hx. destruct (decide (x = v)) as [->|Hne].
    + rewrite lookup_insert_eq in Hx. simplify_eq.
      destruct (Hwalk u zu Hzu) as [p Hp]. exists (u :: p). by apply walk_step.
    + rewrite lookup_insert_ne in Hx by done. by apply Hwalk.
  - intros x z Hx Hxo. destruct (decide (x = v)) as [->|Hne].
    + rewrite lookup_insert_eq. destruct (Hfin u zu Hzu) as [zu' Hzu']. by exists u, zu'.
    + rewrite lookup_insert_ne in Hx by done. rewrite lookup_insert_ne by done.
      destruct (Hprev x z Hx Hxo) as (p & zp & Hp & Hzp).
      destruct (Hfin p zp Hzp) as [zp' Hzp']. by exists p, zp'.
  - intros x Hx. destruct (Hvisf x Hx) as [z Hz]. by apply (Hfin x z).
  - intros x z Hx Hdx. destruct (decide (x = v)) as [->|Hne].
    + exists (Int (zu + w), v). split; [|done]. rewrite Hperm. apply list_elem_of_here.
    + rewrite lookup_insert_ne in Hdx by done.
      destruct (Hheap x z Hx Hdx) as (e & He1 & He2). exists e. split; [|done].
      rewrite Hperm. by apply list_elem_of_further.
  - intros e Hin. rewrite Hperm in Hin. apply elem_of_cons in Hin as [->|Hin].
    + simpl. rewrite lookup_insert_eq. by eauto.
    + destruct (Hent e Hin) as [z Hz]. by apply (Hfin _ z).
Qed.

Lemma for_routes_any V u rs heap vis dist prev :
  Any self o d V heap dist prev →
  u ∈ V → vis ⊆ V →
  (∀ r, r ∈ rs → edge self u r.1 r.2) →
  ∃ heap' dist' prev',
    for_routes u rs
      {| unvisited_stations := heap; visited := vis; dist := dist; prev := prev |}
      = Ret {| unvisited_stations := heap'; visited := vis; dist := dist'; prev := prev' |} ∧
    Any self o d V heap' dist' prev' ∧
    (∀ x z, dist !! x = Some (Int z) → ∃ z', dist' !! x = Some (Int z')) ∧
    (∀ r, r ∈ rs → ∃ z, dist' !! r.1 = Some (Int z)).
Proof.
  revert heap dist prev.
  induction rs as [|r rs IH]; intros heap dist prev HA Hu Hvis Hedges.
  - exists heap, dist, prev. simpl. split_and!; try done; [by eauto|].
    intros r Hr. by apply elem_of_nil in Hr.
  - destruct (relax_any V u r heap vis dist prev HA Hu Hvis)
      as (h1 & d1 & p1 & Hrun1 & HA1 & Hfin1 & Hr1).
    { apply Hedges, list_elem_of_here. }
    destruct (IH h1 d1 p1 HA1 Hu Hvis) as (h2 & d2 & p2 & Hrun2 & HA2 & Hfin2 & Hr2).
    { intros r' Hr'. by apply Hedges, list_elem_of_further. }
    exists h2, d2, p2. simpl. rewrite Hrun1, bind_Ret. split_and!; try done.
    + intros x z Hx. destruct (Hfin1 x z Hx) as [z' Hz']. by apply (Hfin2 x z').
    + intros r' Hr'. apply elem_of_cons in Hr' as [->|Hr']; [|by apply Hr2].
      destruct Hr1 as [z Hz]. by apply (Hfin2 _ z).
Qed.

(** With the queue empty, every station a path from the origin leads to is
    visited. *)
Lemma Any_empty_no_walk vis dist prev :
  Any self o d vis [] dist prev → discovered self vis dist →
  ∀ p W, ¬ walk self o (d :: p) W.
Proof.
  intros HA HD p W Hw.
  assert (∀ x z, dist !! x = Some (Int z) → x ∈ vis) as Hall.
  { intros x z Hx. destruct (decide (x ∈ vis)) as [|Hno]; [done|].
    destruct (any_heap _ _ _ _ _ _ _ HA x z Hno Hx) as (e & He & _).
    by apply elem_of_nil in He. }
  assert (∀ q W', walk self o q W' → ∀ y q', q = y :: q' → y ∈ vis) as Hvis.
  { induction 1 as [|y z q w W' Hw' IH He]; intros y' q' [= <- <-].
    - destruct (any_o _ _ _ _ _ _ _ HA) as [zo Hzo]. by apply (Hall o zo).
    - destruct (HD y z w (IH y q eq_refl) He) as [zz Hz]. by apply (Hall z zz). }
  apply (any_d _ _ _ _ _ _ _ HA). by apply (Hvis _ _ Hw d p).
Qed.

(** [_count_stops] raises nothing when every station with a distance, but the
    origin, has a predecessor with a distance. *)
Lemma _count_stops_no_raise (dist : gmap string num) (prev : gmap string string)
    fuel v k :
  (∀ x z, dist !! x = Some (Int z) → x ≠ o →
     ∃ p zp, prev !! x = Some p ∧ dist !! p = Some (Int zp)) →
  (∃ z, dist !! v = Some (Int z)) → v ≠ o →
  _count_stops fuel v o prev k = NoFuel ∨ ∃ n, _count_stops fuel v o prev k = Ret n.
Proof.
  intros Hprev. revert v k. induction fuel as [|fuel IH]; intros v k [z Hz] Hvo;
    rewrite _count_stops_eq; destruct (Hprev v z Hz Hvo) as (p & zp & Hp & Hzp);
    unfold dict_get; rewrite Hp, bind_Ret; case_bool_decide; eauto.
Qed.

Context (Hod : o ≠ d).

(** The search loop on a built map, with any distances: it runs out of fuel,
    or answers [(math.inf, None)] and there is no path, or answers a distance
    that is the sum of a path. *)
Lemma search_any fuel heap vis dist prev :
  Any self o d vis heap dist prev → discovered self vis dist →
  any_answer self o d
    (search_result self o d fuel
       {| unvisited_stations := heap; visited := vis; dist := dist; prev := prev |}).
Proof.
  revert heap vis dist prev.
  induction fuel as [|fuel IH]; intros heap vis ds pv HA HD.
  { destruct heap; [|by left]. right. left. split; [done|]. by eapply Any_empty_no_walk. }
  destruct heap as [|e0 heap0] eqn:Eheap.
  { right. left. split; [done|]. by eapply Any_empty_no_walk. }
  rewrite <- Eheap in *.
  assert (heap ≠ []) as Hne by (by rewrite Eheap).
  destruct (heappop_ordered heap (any_HP _ _ _ _ _ _ _ HA) Hne)
    as (e & heap' & Hpop & Hord & Hperm & Hmin).
  assert (search_result self o d (S fuel)
            {| unvisited_stations := heap; visited := vis; dist := ds; prev := pv |}
          = if bool_decide (e.2 = d) then
              dz ← dict_get ds e.2;
              stops ← _count_stops fuel e.2 o pv 0;
              Ret (dz, Some stops)
            else
              s ← dict_get (stations self) e.2;
              l ← for_routes e.2 (routes s)
                    {| unvisited_stations := heap'; visited := vis;
                       dist := ds; prev := pv |};
              search_result self o d fuel
                {| unvisited_stations := unvisited_stations l;
                   visited := {[e.2]} ∪ visited l;
                   dist := dist l; prev := prev l |}) as ->.
  { simpl. rewrite Eheap at 1. by rewrite Hpop. }
  assert (e ∈ heap) as He by (rewrite Hperm; apply list_elem_of_here).
  destruct (any_ent _ _ _ _ _ _ _ HA e He) as [z Hz].
  case_bool_decide as Hed.
  - rewrite Hed in Hz. rewrite Hed. unfold dict_get. rewrite Hz, bind_Ret.
    destruct (_count_stops_no_raise ds pv fuel d 0 (any_prev _ _ _ _ _ _ _ HA))
      as [->|[n ->]]; [by eauto|by apply not_eq_sym|by left|].
    right. right. destruct (any_walk _ _ _ _ _ _ _ HA d z Hz) as [p Hp].
    by exists z, n, p.
  - set (u := e.2) in *.
    assert (is_Some (stations self !! u)) as [s Hs].
    { apply elem_of_dom. rewrite <- (any_dom _ _ _ _ _ _ _ HA). by apply elem_of_dom_2 in Hz. }
    unfold dict_get at 1. rewrite Hs, bind_Ret.
    assert (∀ r, r ∈ routes s → edge self u r.1 r.2) as Hedges.
    { intros [v w] Hr. by exists s. }
    assert (Any self o d ({[u]} ∪ vis) heap' ds pv) as HA'.
    { destruct HA as [Hdom Ho Hd Hwalk Hprev Hvisf Hheap Hent HHP]. split; try done.
      - set_solver.
      - intros v Hv. apply elem_of_union in Hv as [Hv|Hv]; [|by apply Hvisf].
        apply elem_of_singleton in Hv as ->. by exists z.
      - intros x zx Hx Hdx. destruct (Hheap x zx) as (e' & He' & He2); [set_solver|done|].
        exists e'. split; [|done]. rewrite Hperm in He'.
        apply elem_of_cons in He' as [->|He']; [|done]. set_solver.
      - intros e' He'. apply Hent. rewrite Hperm. by apply list_elem_of_further. }
    destruct (for_routes_any ({[u]} ∪ vis) u (routes s) heap' vis ds pv HA')
      as (h2 & d2 & p2 & Hrun & HA2 & Hfin2 & Hr2); [set_solver|set_solver|done|].
    rewrite Hrun, bind_Ret. simpl. apply IH; [done|].
    intros y v w Hy Hyv. apply elem_of_union in Hy as [Hy|Hy].
    + apply elem_of_singleton in Hy as ->. destruct Hyv as (s' & Hs' & Hin). simplify_eq.
      by apply (Hr2 (v, w)).
    + destruct (HD y v w Hy Hyv) as [zv Hzv]. by apply (Hfin2 v zv).
Qed.

End any.

Lemma Any_initial self o d :
  o ∈ dom (stations self) → Any self o d ∅ [(Int 0, o)] (initial_dist self o) ∅.
Proof.
  intros Ho. split.
  - apply set_eq. intros x. rewrite !elem_of_dom, initial_dist_lookup.
    by rewrite fmap_is_Some.
  - exists 0. by apply initial_dist_origin.
  - set_solver.
  - intros x z Hx. apply initial_dist_Int in Hx as [-> ->]. exists []. constructor.
  - intros x z Hx Hne. by apply initial_dist_Int in Hx as [-> ->].
  - set_solver.
  - intros x z _ Hx. apply initial_dist_Int in Hx as [-> ->].
    exists (Int 0, o). split; [apply list_elem_of_here|done].
  - intros e He. apply list_elem_of_singleton in He as ->. simpl.
    exists 0. by apply initial_dist_origin.
  - intros j a b Hj Ha Hb. apply lookup_lt_Some in Hb. simpl in Hb. lia.
Qed.

Lemma find_shortest_route_any self o d fuel :
  wf self → o ≠ d → o ∈ dom (stations self) → d ∈ dom (stations self) →
  any_answer self o d (find_shortest_route fuel o d self).1.
Proof.
  intros Hwf Hod Ho Hd. rewrite !find_shortest_route_run; unfold find_shortest_route_result, reads.
  rewrite (bool_decide_eq_false_2 (o ∉ _)) by (intros H; by apply H).
  rewrite (bool_decide_eq_false_2 (d ∉ _)) by (intros H; by apply H).
  rewrite (bool_decide_eq_false_2 (o = d)) by done.
  rewrite heappush_nil, bind_Ret. cbn [fst].
  apply (search_any self o d Hwf Hod); [by apply Any_initial|].
  intros u v w Hu. set_solver.
Qed.

(** X5: on a built map, with any distances, a query for two different
    registered stations that answers [(math.inf, None)] has no path to
    answer with, and one that answers a distance answers the sum of the
    distances of a directed path from the origin to the destination. *)
Theorem find_shortest_route_sound (self : StationMap) (o d : string) (fuel : nat)
    (dz : num) (st : option nat) :
  built self → o ≠ d → o ∈ dom (stations self) → d ∈ dom (stations self) →
  (find_shortest_route fuel o d self).1 = Ret (dz, st) →
  (dz = Inf ∧ st = None ∧ ∀ p W, ¬ walk self o (d :: p) W) ∨
  (∃ z n p, dz = Int z ∧ st = Some n ∧ walk self o (d :: p) z).
Proof.
  intros Hb Hod Ho Hd Hrun.
  destruct (find_shortest_route_any self o d fuel (built_wf _ Hb) Hod Ho Hd)
    as [H|[[H Hno]|(z & n & p & H & Hw)]]; rewrite Hrun in H; simplify_eq.
  - by left.
  - right. by exists z, n, p.
Qed.

Lemma find_shortest_route_sound_witness :
  (Int 1 = Inf ∧ Some 0%nat = None ∧ ∀ p W, ¬ walk map_negative "A" ("B"%string :: p) W) ∨
  (∃ z n p, Int 1 = Int z ∧ Some 0%nat = Some n ∧ walk map_negative "A" ("B"%string :: p) z).
Proof.
  apply (find_shortest_route_sound map_negative "A" "B" (fuel_bound map_negative)
           (Int 1) (Some 0%nat) built_negative).
  - discriminate.
  - by_compute.
  - by_compute.
  - vm_compute. reflexivity.
Defined.

(** X6: on a built map, with any distances, a query raises nothing but
    [StationDoesNotExistError], and that for a name that is not registered:
    the origin, or the destination when the origin is registered. *)
Theorem find_shortest_route_raises (self : StationMap) (o d : string) (fuel : nat)
    (e : exn) :
  built self → (find_shortest_route fuel o d self).1 = Raise e →
  (e = StationDoesNotExistError o ∧ o ∉ dom (stations self)) ∨
  (e = StationDoesNotExistError d ∧ o ∈ dom (stations self) ∧ d ∉ dom (stations self)).
Proof.
  intros Hb Hrun.
  destruct (decide (o ∈ dom (stations self))) as [Ho|Ho].
  2:{ left. split; [|done]. rewrite !find_shortest_route_run in Hrun; unfold find_shortest_route_result, reads in Hrun. simpl in Hrun.
      rewrite bool_decide_eq_true_2 in Hrun by done. by simplify_eq. }
  destruct (decide (d ∈ dom (stations self))) as [Hd|Hd].
  2:{ right. split; [|done]. rewrite !find_shortest_route_run in Hrun; unfold find_shortest_route_result, reads in Hrun. simpl in Hrun.
      rewrite bool_decide_eq_false_2 in Hrun by (intros H; by apply H).
      rewrite bool_decide_eq_true_2 in Hrun by done. by simplify_eq. }
  destruct (decide (o = d)) as [->|Hod].
  { rewrite find_shortest_route_same in Hrun by done. done. }
  destruct (find_shortest_route_any self o d fuel (built_wf _ Hb) Hod Ho Hd)
    as [H|[[H _]|(z & n & p & H & _)]]; rewrite Hrun in H; done.
Qed.

Lemma find_shortest_route_raises_witness :
  (StationDoesNotExistError "Z" = StationDoesNotExistError "A" ∧
   "A" ∉ dom (stations map_negative)) ∨
  (StationDoesNotExistError "Z" = StationDoesNotExistError "Z" ∧
   "A" ∈ dom (stations map_negative) ∧ "Z" ∉ dom (stations map_negative)).
Proof.
  apply (find_shortest_route_raises map_negative "A" "Z" 0 _ built_negative).
  vm_compute. reflexivity.
Defined.

(** ** Answers without negative distances *)

Lemma walk_registered self o p W :
  wf self → o ∈ dom (stations self) → walk self o p W →
  ∀ x, x ∈ p → x ∈ dom (stations self).
Proof.
  intros Hwf Ho. induction 1 as [|y z p w W Hw IH (s & Hs & Hin)]; intros x Hx.
  - by apply list_elem_of_singleton in Hx as ->.
  - apply elem_of_cons in Hx as [->|Hx]; [|by apply IH].
    by apply (wf_dests _ Hwf _ _ _ _ Hs Hin).
Qed.

Lemma walk_nonneg self o p W : nonneg_routes self → walk self o p W → 0 ≤ W.
Proof.
  intros Hnn. induction 1 as [|y z p w W Hw IH He]; [done|].
  pose proof (nonneg_routes_edge self Hnn _ _ _ He). lia.
Qed.

(** X7: on a built map without negative distances, a query for two different
    registered stations that answers [(distance, stop_count)] answers a
    distance that is not negative and a stop count that leaves room for
    origin and destination among the stations; when the stop count is [0]
    there is a route from origin to destination with that distance. *)
Theorem find_shortest_route_bounds (self : StationMap) (o d : string) (fuel : nat)
    (z : Z) (n : nat) :
  built self → nonneg_routes self → o ≠ d →
  o ∈ dom (stations self) → d ∈ dom (stations self) →
  (find_shortest_route fuel o d self).1 = Ret (Int z, Some n) →
  0 ≤ z ∧ (n + 2 ≤ size (stations self))%nat ∧ (n = 0%nat → edge self o d z).
Proof.
  intros Hb Hnn Hod Ho Hd Hrun. pose proof (built_wf _ Hb) as Hwf.
  destruct (find_shortest_route_spec self o d (fuel `max` fuel_bound self) Hwf Hnn Ho Hd Hod)
    as (r & Hrun' & Hr); [lia|].
  apply (find_shortest_route_fuel _ _ _ _ (fuel `max` fuel_bound self)) in Hrun; [|lia].
  rewrite Hrun' in Hrun. simpl in Hrun. simplify_eq.
  destruct Hr as [(zd & stops & p & Heq & _ & Hw & Hlen & Hnd)|[? _]]; [|done].
  simplify_eq. split; [by apply (walk_nonneg self o (d :: p))|]. split.
  - assert (length (d :: p) ≤ size (dom (stations self)))%nat as Hsz.
    { apply NoDup_length_size; [done|]. by apply (walk_registered self o _ zd). }
    rewrite size_dom in Hsz. simpl in Hsz. lia.
  - intros ->. destruct p as [|x [|? ?]]; simpl in Hlen; try lia.
    inversion Hw as [|y z' p' w W Hw' He]; subst.
    inversion Hw'; subst. by rewrite Z.add_0_l.
Qed.

Lemma find_shortest_route_bounds_witness :
  0 ≤ 10 ∧ (1 + 2 ≤ size (stations map_abc))%nat ∧ (1%nat = 0%nat → edge map_abc "A" "C" 10).
Proof.
  apply (find_shortest_route_bounds map_abc "A" "C" 10 10 1 built_abc nonneg_abc).
  - discriminate.
  - by_compute.
  - by_compute.
  - vm_compute. reflexivity.
Defined.

(** ** The queue *)

Lemma heappush_all_ordered items h :
  heap_ordered h →
  ∃ h', heappush_all items h = Ret h' ∧ heap_ordered h' ∧ h' ≡ₚ items ++ h.
Proof.
  revert h. induction items as [|x items IH]; intros h Hh; simpl.
  - by exists h.
  - destruct (heappush_ordered h x Hh) as (h1 & -> & Hh1 & Hp1). rewrite bind_Ret.
    destruct (IH h1 Hh1) as (h2 & -> & Hh2 & Hp2). exists h2. split; [done|]. split; [done|].
    rewrite Hp2, Hp1. by rewrite Permutation_middle.
Qed.

Lemma heappop_all_sorted n h :
  heap_ordered h → length h = n →
  ∃ out, heappop_all n h = Ret out ∧ out ≡ₚ h ∧
         StronglySorted (λ a b : entry, num_le a.1 b.1) out.
Proof.
  revert h. induction n as [|n IH]; intros h Hh Hn; simpl.
  - destruct h; [|done]. exists []. split; [done|]. split; [done|constructor].
  - assert (h ≠ []) as Hne by (by destruct h).
    destruct (heappop_ordered h Hh Hne) as (x & h' & -> & Hh' & Hp & Hmin).
    rewrite bind_Ret. simpl.
    destruct (IH h' Hh') as (out & -> & Hpo & Hs).
    { apply Permutation_length in Hp. simpl in Hp. lia. }
    rewrite bind_Ret. exists (x :: out). split; [done|]. split; [by rewrite Hp, Hpo|].
    constructor; [done|]. apply Forall_forall. intros y Hy. apply Hmin.
    rewrite Hp, <- Hpo. by apply list_elem_of_further.
Qed.

(** X8: entries pushed on an empty queue in any order come out of it, pop
    after pop, in the order of their distances, the nearest first, and they
    are the entries that were pushed; no comparison of stations of the same
    distance makes a push or a pop fail. *)
Theorem queue_pops_nearest_first (items : list entry) :
  ∃ heap out,
    heappush_all items [] = Ret heap ∧
    heappop_all (length items) heap = Ret out ∧
    out ≡ₚ items ∧
    StronglySorted (λ a b : entry, num_le a.1 b.1) out.
Proof.
  destruct (heappush_all_ordered items []) as (h & Hpush & Hh & Hp).
  { intros j a b _ Ha. done. }
  rewrite app_nil_r in Hp.
  destruct (heappop_all_sorted (length items) h Hh) as (out & Hpop & Hpo & Hs).
  { by apply Permutation_length in Hp. }
  exists h, out. split_and!; try done. by rewrite Hpo.
Qed.

(** ** A query that does not return *)

Lemma search_S self o d fuel l :
  search_result self o d (S fuel) l =
    match unvisited_stations l with
    | [] => Ret (Inf, None)
    | _ :: _ =>
        '(item, heap) ← heappop (unvisited_stations l);
        if bool_decide (item.2 = d) then
          dz ← dict_get (dist l) item.2;
          stops ← _count_stops fuel item.2 o (prev l) 0;
          Ret (dz, Some stops)
        else
          s ← dict_get (stations self) item.2;
          l' ← for_routes item.2 (routes s)
                 {| unvisited_stations := heap; visited := visited l;
                    dist := dist l; prev := prev l |};
          search_result self o d fuel
            {| unvisited_stations := unvisited_stations l';
               visited := {[item.2]} ∪ visited l';
               dist := dist l'; prev := prev l' |}
    end.
Proof. reflexivity. Qed.

(** Replaces a closed computation by its value. *)
Ltac run t :=
  let v := eval vm_compute in t in
  replace t with v by (vm_compute; reflexivity).

(** On [map_loop] the query from A to C finds C with B as predecessor, and B,
    by its route to itself, with B as predecessor: [_count_stops] never
    reaches A, whatever the fuel is. *)
Example run_loop fuel : (find_shortest_route fuel "A" "C" map_loop).1 = NoFuel.
Proof.
  rewrite !find_shortest_route_run; unfold find_shortest_route_result, reads. cbn [fst].
  run (bool_decide ("A"%string ∉ dom (stations map_loop))).
  run (bool_decide ("C"%string ∉ dom (stations map_loop))).
  run (bool_decide ("A"%string = "C"%string)).
  rewrite heappush_nil, bind_Ret.
  do 4 (destruct fuel as [|fuel]; [vm_compute; reflexivity|]).
  repeat (rewrite search_S; cbn [unvisited_stations visited dist prev];
    match goal with
    | |- context [heappop ?h] => run (heappop h)
    end; rewrite bind_Ret; cbn [fst snd];
    match goal with
    | |- context [bool_decide (?a = ?b)] => run (bool_decide (a = b))
    end;
    try (match goal with
         | |- context [dict_get (stations ?m) ?k] => run (dict_get (stations m) k)
         end; rewrite bind_Ret;
         match goal with
         | |- context [for_routes ?u ?rs ?l] => run (for_routes u rs l)
         end; rewrite bind_Ret; cbn [unvisited_stations visited dist prev])).
  match goal with
  | |- context [dict_get ?m ?k] => run (dict_get m k)
  end. rewrite bind_Ret.
  rewrite (_count_stops_closed {["B"; "C"]}%string); [done|set_solver|].
  intros x Hx. exists "B"%string. split; [|split; [discriminate|set_solver]].
  apply elem_of_union in Hx as [Hx|Hx]; apply elem_of_singleton in Hx as ->;
    vm_compute; reflexivity.
Qed.

(** ** The loader *)

Lemma add_routes_cons o d w rs sm :
  add_routes ((o, d, w) :: rs) sm =
    match add_route o d w sm with
    | (Ret _, sm1) => add_routes rs sm1
    | (Raise e, sm1) => (Raise e, sm1)
    | (NoFuel, sm1) => (NoFuel, sm1)
    end.
Proof. reflexivity. Qed.

Lemma add_route_outcome o d w sm :
  (∃ sm1, add_route o d w sm = (Ret (), sm1)) ∨
  (∃ a b sm1, add_route o d w sm = (Raise (DuplicateRouteError a b), sm1)).
Proof.
  destruct (add_route_cases o d w sm) as [(_ & a & b & H)|(_ & H & _)].
  - right. by eauto.
  - left. exists (add_route o d w sm).2. destruct (add_route o d w sm) as [[[]| |] sm1]; by simplify_eq/=.
Qed.

(** The routes of a map that a load has extended, and when a load returns. *)
Lemma add_routes_returns rs sm sm' :
  add_routes rs sm = (Ret (), sm') →
  (∀ u v w, edge sm' u v w ↔ edge sm u v w ∨ (u, v, w) ∈ rs) ∧
  (∀ x, x ∈ dom (stations sm') ↔
        x ∈ dom (stations sm) ∨ ∃ r, r ∈ rs ∧ (x = r.1.1 ∨ x = r.1.2)) ∧
  NoDup rs.*1 ∧
  (∀ r, r ∈ rs → ¬ has_route sm r.1.1 r.1.2).
Proof.
  revert sm. induction rs as [|[[o d] w] rs IH]; intros sm Hrun.
  - unfold add_routes, mret, M_ret in Hrun. simplify_eq. split_and!.
    + intros u v w. split; [by left|]. intros [H|H]; [done|by apply elem_of_nil in H].
    + intros x. split; [by left|]. intros [H|(r & H & _)]; [done|by apply elem_of_nil in H].
    + constructor.
    + intros r H. by apply elem_of_nil in H.
  - rewrite add_routes_cons in Hrun.
    destruct (add_route_outcome o d w sm) as [[sm1 H1]|(a & b & sm1 & H1)];
      rewrite H1 in Hrun; [|done].
    destruct (add_route_Ret sm sm1 o d w H1) as (Hno & Hdom1 & He1).
    destruct (IH sm1 Hrun) as (He & Hdom & Hnd & Hnr). split_and!.
    + intros u v x. rewrite He, He1, elem_of_cons. split.
      * intros [[H|(-> & -> & ->)]|H]; eauto.
      * intros [H|[H|H]]; simplify_eq; eauto.
    + intros x. rewrite Hdom. split.
      * intros [H|(r & Hr & Hx)].
        -- rewrite Hdom1 in H. apply elem_of_union in H as [H|H]; [|by left].
           right. exists (o, d, w). split; [apply list_elem_of_here|]. set_solver.
        -- right. exists r. split; [by apply list_elem_of_further|done].
      * intros [H|(r & Hr & Hx)].
        -- left. rewrite Hdom1. set_solver.
        -- apply elem_of_cons in Hr as [->|Hr]; [|right; by exists r].
           left. rewrite Hdom1. simpl in Hx. set_solver.
    + simpl. constructor; [|done]. intros Hin.
      apply list_elem_of_fmap in Hin as ([[o' d'] w'] & Heq & Hin). simpl in Heq. simplify_eq.
      apply (Hnr _ Hin). simpl. apply has_route_edge. exists w. apply He1. by right.
    + intros r Hr. apply elem_of_cons in Hr as [->|Hr]; [done|].
      intros Hh. apply (Hnr r Hr). apply has_route_edge in Hh as [x Hx].
      apply has_route_edge. exists x. apply He1. by left.
Qed.

Lemma add_routes_succeeds rs sm :
  NoDup rs.*1 → (∀ r, r ∈ rs → ¬ has_route sm r.1.1 r.1.2) →
  ∃ sm', add_routes rs sm = (Ret (), sm').
Proof.
  revert sm. induction rs as [|[[o d] w] rs IH]; intros sm Hnd Hnr.
  - by exists sm.
  - rewrite add_routes_cons. simpl in Hnd. apply NoDup_cons in Hnd as [Hnin Hnd].
    destruct (add_route_cases o d w sm) as [(Hr & _)|(_ & Hret & _ & He)].
    { destruct (Hnr (o, d, w)); [apply list_elem_of_here|done]. }
    destruct (add_route o d w sm) as [[[]| |] sm1] eqn:E; simpl in Hret; try done.
    apply IH; [done|]. intros r Hr Hh. apply has_route_edge in Hh as [x Hx].
    simpl in He. apply He in Hx as [Hx|(H1 & H2 & _)].
    + apply (Hnr r); [by apply list_elem_of_further|]. apply has_route_edge. by exists x.
    + apply Hnin. apply list_elem_of_fmap. exists r. split; [|done].
      destruct r as [[? ?] ?]. simpl in *. by subst.
Qed.

Section loader_facts.

Context (int : string → option Z).

Lemma parse_rows_app good rest sm :
  parse_rows int (good ++ rest) sm =
    match parse_rows int good sm with
    | Parsed sm1 => parse_rows int rest sm1
    | r => r
    end.
Proof.
  revert sm. induction good as [|row good IH]; intros sm; simpl; [done|].
  destruct (fields row) as [|o [|d [|t ?]]]; try done.
  destruct (int t); [|done].
  destruct (add_route o d z sm) as [[[]|[]|] sm1]; done.
Qed.

(** A load returns a map exactly when every record stands for a route and
    [add_route] returns for each of them in turn. *)
Lemma parse_rows_Parsed rows sm sm' :
  parse_rows int rows sm = Parsed sm' ↔
  ∃ rs, routes_of_rows int rows = Some rs ∧ add_routes rs sm = (Ret (), sm').
Proof.
  revert sm. induction rows as [|row rows IH]; intros sm; simpl.
  - split; [intros [= ->]; by exists []|]. intros (rs & [= <-] & H).
    unfold add_routes, mret, M_ret in H. by simplify_eq.
  - destruct (fields row) as [|o [|d [|t ?]]]; try by (split; [|intros (? & ? & ?)]).
    + apply IH.
    + destruct (int t) as [w|]; simpl; [|by (split; [|intros (? & ? & ?)])].
      destruct (add_route_outcome o d w sm) as [[sm1 H1]|(a & b & sm1 & H1)]; rewrite H1.
      * rewrite IH. split; intros (rs & Hrs & Hrun).
        -- exists ((o, d, w) :: rs). rewrite Hrs. split; [done|].
           by rewrite add_routes_cons, H1.
        -- destruct (routes_of_rows int rows) as [rs'|]; [|done].
           simpl in Hrs. injection Hrs as <-.
           exists rs'. split; [done|]. by rewrite add_routes_cons, H1 in Hrun.
      * split; [done|]. intros (rs & Hrs & Hrun).
        destruct (routes_of_rows int rows) as [rs'|]; [|done].
        simpl in Hrs. injection Hrs as <-.
        by rewrite add_routes_cons, H1 in Hrun.
Qed.

Lemma parse_rows_cons row rows sm :
  parse_rows int (row :: rows) sm =
    match fields row with
    | [] => parse_rows int rows sm
    | [_] | [_; _] =>
        RouteParsingError
          (RouteParsingError_message
             "Invalid route format. Expected format: origin_name, destination_name, distance."
             (Some (line_num row)))
    | origin :: destination :: text :: _ =>
        match int text with
        | None =>
            RouteParsingError
              (RouteParsingError_message ("'" ++ text ++ "' is not an integer")%string
                 (Some (line_num row)))
        | Some distance =>
            match add_route origin destination distance sm with
            | (Ret _, sm1) => parse_rows int rows sm1
            | (Raise (DuplicateRouteError a b), _) =>
                RouteParsingError
                  (RouteParsingError_message
                     ("Route parsing failed: "
                        ++ default "" (message (DuplicateRouteError a b)))%string
                     (Some (line_num row)))
            | (Raise e, _) => Uncaught e
            | (NoFuel, _) => Unfinished
            end
        end
    end.
Proof. reflexivity. Qed.

Lemma RouteParsingError_message_preface m l :
  ∃ rest, RouteParsingError_message m l = ("Route parsing failed" ++ rest)%string.
Proof. destruct l as [[|n]|]; simpl; by eauto. Qed.

Lemma parse_rows_ends rows sm :
  (∃ sm', parse_rows int rows sm = Parsed sm') ∨
  (∃ rest, parse_rows int rows sm = RouteParsingError ("Route parsing failed" ++ rest)).
Proof.
  revert sm. induction rows as [|row rows IH]; intros sm; [left; by eexists|].
  rewrite parse_rows_cons.
  destruct (fields row) as [|o [|d [|t ?]]]; [done| | |].
  - right. edestruct RouteParsingError_message_preface as [rest ->]. by eexists.
  - right. edestruct RouteParsingError_message_preface as [rest ->]. by eexists.
  - destruct (int t) as [w|].
    + destruct (add_route_outcome o d w sm) as [[sm1 ->]|(a & b & sm1 & ->)]; [done|].
      right. edestruct RouteParsingError_message_preface as [rest ->]. by eexists.
    + right. edestruct RouteParsingError_message_preface as [rest ->]. by eexists.
Qed.

End loader_facts.

Lemma built_from self rs : add_routes rs StationMap_init = (Ret (), self) → built self.
Proof. intros H. by exists rs. Qed.

(** X9: a file that has no records, or only records without fields, loads
    as the empty station map: [parse_routes] raises nothing for it. *)
Theorem parse_routes_no_routes (int : string → option Z)
    (read : string → read_failure + list csv_row) (path : string) (rows : list csv_row) :
  read path = inr rows → Forall (λ row, fields row = []) rows →
  parse_routes int read path = Parsed StationMap_init.
Proof.
  intros Hread Hrows. unfold parse_routes. rewrite Hread.
  assert (parse_rows int rows StationMap_init = Parsed StationMap_init) as ->; [|done].
  clear Hread. induction Hrows as [|row rows Hrow _ IH]; [done|].
  by rewrite parse_rows_cons, Hrow.
Qed.

Lemma parse_routes_no_routes_witness :
  parse_routes int_example read_example "empty.csv" = Parsed StationMap_init.
Proof.
  apply (parse_routes_no_routes int_example read_example "empty.csv"
           [ {| line_num := 1; fields := [] |} ]).
  - reflexivity.
  - by repeat constructor.
Defined.

Lemma parse_routes_Parsed int read path sm :
  parse_routes int read path = Parsed sm ↔
  ∃ rows rs, read path = inr rows ∧ routes_of_rows int rows = Some rs ∧
             add_routes rs StationMap_init = (Ret (), sm).
Proof.
  unfold parse_routes. destruct (read path) as [[rows e]|rows].
  - split; [|by intros (? & ? & ? & _)]. simpl.
    destruct (parse_rows int rows StationMap_init); [by destruct e|done..].
  - split.
    + intros H. destruct (parse_rows int rows StationMap_init) as [sm'| | | |] eqn:E; simplify_eq.
      apply parse_rows_Parsed in E as (rs & Hrs & Hrun). by exists rows, rs.
    + intros (rows' & rs & [= <-] & Hrs & Hrun).
      assert (parse_rows int rows StationMap_init = Parsed sm) as ->; [|done].
      apply parse_rows_Parsed. by exists rs.
Qed.

(** X10: the map [parse_routes] returns is built, and it holds the routes the
    records of the file stand for and nothing else: the file has no two
    records for the same ordered pair of stations, the routes of the map are
    those of the records with their distances, and its stations are the ends
    of those routes. *)
Theorem parse_routes_loaded (int : string → option Z)
    (read : string → read_failure + list csv_row) (path : string) (sm : StationMap) :
  parse_routes int read path = Parsed sm →
  ∃ rows rs,
    read path = inr rows ∧ routes_of_rows int rows = Some rs ∧
    NoDup rs.*1 ∧ built sm ∧
    (∀ u v w, edge sm u v w ↔ (u, v, w) ∈ rs) ∧
    (∀ x, x ∈ dom (stations sm) ↔ ∃ r, r ∈ rs ∧ (x = r.1.1 ∨ x = r.1.2)).
Proof.
  intros (rows & rs & Hread & Hrs & Hrun)%parse_routes_Parsed.
  exists rows, rs. destruct (add_routes_returns rs _ _ Hrun) as (He & Hdom & Hnd & _).
  split_and!; try done.
  - by apply (built_from _ rs).
  - intros u v w. rewrite He. split; [|by right].
    intros [(s & Hs & _)|H]; [|done]. simpl in Hs. by rewrite lookup_empty in Hs.
  - intros x. rewrite Hdom. split; [|by right].
    intros [H|H]; [|done]. simpl in H. set_solver.
Qed.

Lemma parse_routes_loaded_witness :
  ∃ rows rs,
    read_example "abc.csv" = inr rows ∧ routes_of_rows int_example rows = Some rs ∧
    NoDup rs.*1 ∧ built map_abc ∧
    (∀ u v w, edge map_abc u v w ↔ (u, v, w) ∈ rs) ∧
    (∀ x, x ∈ dom (stations map_abc) ↔ ∃ r, r ∈ rs ∧ (x = r.1.1 ∨ x = r.1.2)).
Proof.
  apply (parse_routes_loaded int_example read_example "abc.csv" map_abc).
  vm_compute. reflexivity.
Defined.

(** X11: a file that can be read loads when each of its records with fields
    has three fields at least, the third an integer for [int], and no two
    records name the same origin and destination. *)
Theorem parse_routes_succeeds (int : string → option Z)
    (read : string → read_failure + list csv_row) (path : string)
    (rows : list csv_row) (rs : list (string * string * Z)) :
  read path = inr rows → routes_of_rows int rows = Some rs → NoDup rs.*1 →
  ∃ sm, parse_routes int read path = Parsed sm.
Proof.
  intros Hread Hrs Hnd. destruct (add_routes_succeeds rs StationMap_init Hnd) as [sm Hsm].
  { intros r _ (s & Hs & _). simpl in Hs. by rewrite lookup_empty in Hs. }
  exists sm. apply parse_routes_Parsed. by exists rows, rs.
Qed.

Lemma parse_routes_succeeds_witness :
  ∃ sm, parse_routes int_example read_example "abc.csv" = Parsed sm.
Proof.
  apply (parse_routes_succeeds int_example read_example "abc.csv" file_abc rows_abc).
  - reflexivity.
  - vm_compute. reflexivity.
  - by_compute.
Defined.

(** X12: [parse_routes] ends in one of three ways: it returns a station map;
    it raises [RouteParsingError] with a message that starts with
    [Route parsing failed]; or an exception that is no [OSError], raised by
    [open] or by the csv reader while the file is read, leaves it, which
    happens when the records the reader yields before it raises all load.  No
    [OSError], no [DuplicateRouteError] and no other exception of [add_route]
    leaves it. *)
Theorem parse_routes_ends (int : string → option Z)
    (read : string → read_failure + list csv_row) (path : string) :
  (∃ sm, parse_routes int read path = Parsed sm) ∨
  (∃ rest, parse_routes int read path
           = RouteParsingError ("Route parsing failed" ++ rest)) ∨
  (∃ rows class sm,
     read path = inl {| yielded := rows; raised := OtherError class |} ∧
     parse_rows int rows StationMap_init = Parsed sm ∧
     parse_routes int read path = ReaderError class).
Proof.
  unfold parse_routes. destruct (read path) as [[rows e]|rows]; cbn [yielded raised].
  - destruct (parse_rows_ends int rows StationMap_init) as [[sm Hsm]|[rest ->]].
    + rewrite Hsm. destruct e as [text|class].
      * right; left. edestruct RouteParsingError_message_preface as [rest ->]. by eexists.
      * right; right. by exists rows, class, sm.
    + right; left. by eexists.
  - destruct (parse_rows_ends int rows StationMap_init) as [[sm ->]|[rest ->]].
    + left. by eexists.
    + right; left. by eexists.
Qed.

Example run_missing :
  parse_routes int_example read_example "none.csv" =
    RouteParsingError
      "Route parsing failed: Unable to open route file: [Errno 2] No such file or directory: 'none.csv'".
Proof. vm_compute. reflexivity. Qed.

Example run_latin1 :
  parse_routes int_example read_example "latin1.csv" = ReaderError "UnicodeDecodeError".
Proof. vm_compute. reflexivity. Qed.

Example run_short_latin1 :
  parse_routes int_example read_example "short_latin1.csv" =
    RouteParsingError
      "Route parsing failed on line 4: Invalid route format. Expected format: origin_name, destination_name, distance.".
Proof. vm_compute. reflexivity. Qed.

Lemma RouteParsingError_message_line m line :
  line ≠ 0%nat →
  RouteParsingError_message m (Some line)
  = ("Route parsing failed on line " ++ pretty line ++ ": " ++ m)%string.
Proof. by destruct line. Qed.

(** The records before a record that does not load, when they stand for
    routes with different ends, load; the error then is that of the
    record. *)
Lemma parse_routes_after int read path good rest rs :
  read path = inr (good ++ rest) → routes_of_rows int good = Some rs → NoDup rs.*1 →
  ∃ sm, add_routes rs StationMap_init = (Ret (), sm) ∧
    ∀ m, parse_rows int rest sm = RouteParsingError m →
         parse_routes int read path = RouteParsingError m.
Proof.
  intros Hread Hrs Hnd. destruct (add_routes_succeeds rs StationMap_init Hnd) as [sm Hsm].
  { intros r _ (s & Hs & _). simpl in Hs. by rewrite lookup_empty in Hs. }
  exists sm. split; [done|]. intros m Hm. unfold parse_routes. rewrite Hread, parse_rows_app.
  assert (parse_rows int good StationMap_init = Parsed sm) as ->.
  { apply parse_rows_Parsed. by exists rs. }
  by rewrite Hm.
Qed.

(** X13: when the records of a file load up to a record that has one or two
    fields only, [parse_routes] raises [RouteParsingError] with the line of
    that record and [Invalid route format]; the records after it do not
    count. *)
Theorem parse_routes_short_record (int : string → option Z)
    (read : string → read_failure + list csv_row) (path : string)
    (good rest : list csv_row) (bad : csv_row) (rs : list (string * string * Z)) :
  read path = inr (good ++ bad :: rest) →
  routes_of_rows int good = Some rs → NoDup rs.*1 →
  (length (fields bad) = 1 ∨ length (fields bad) = 2)%nat → line_num bad ≠ 0%nat →
  parse_routes int read path =
    RouteParsingError
      ("Route parsing failed on line " ++ pretty (line_num bad)
       ++ ": Invalid route format. Expected format: origin_name, destination_name, distance.").
Proof.
  intros Hread Hrs Hnd Hlen Hline.
  destruct (parse_routes_after int read path good (bad :: rest) rs Hread Hrs Hnd)
    as (sm & _ & Herr). apply Herr. rewrite parse_rows_cons.
  destruct (fields bad) as [|o [|d [|t ?]]]; simpl in Hlen; try lia;
    by rewrite RouteParsingError_message_line.
Qed.

Lemma parse_routes_short_record_witness :
  parse_routes int_example read_example "short.csv" =
    RouteParsingError
      "Route parsing failed on line 4: Invalid route format. Expected format: origin_name, destination_name, distance.".
Proof.
  apply (parse_routes_short_record int_example read_example "short.csv" file_abc []
           {| line_num := 4; fields := ["C"; "D"]%string |} rows_abc).
  - reflexivity.
  - vm_compute. reflexivity.
  - by_compute.
  - by right.
  - discriminate.
Defined.

(** X14: when the records of a file load up to a record whose third field is
    no integer for [int], [parse_routes] raises [RouteParsingError] with the
    line of that record and the text of the field. *)
Theorem parse_routes_not_integer (int : string → option Z)
    (read : string → read_failure + list csv_row) (path : string)
    (good rest : list csv_row) (bad : csv_row) (rs : list (string * string * Z))
    (o d text : string) (more : list string) :
  read path = inr (good ++ bad :: rest) →
  routes_of_rows int good = Some rs → NoDup rs.*1 →
  fields bad = o :: d :: text :: more → int text = None → line_num bad ≠ 0%nat →
  parse_routes int read path =
    RouteParsingError
      ("Route parsing failed on line " ++ pretty (line_num bad)
       ++ ": '" ++ text ++ "' is not an integer").
Proof.
  intros Hread Hrs Hnd Hf Hint Hline.
  destruct (parse_routes_after int read path good (bad :: rest) rs Hread Hrs Hnd)
    as (sm & _ & Herr). apply Herr.
  by rewrite parse_rows_cons, Hf, Hint, RouteParsingError_message_line.
Qed.

Lemma parse_routes_not_integer_witness :
  parse_routes int_example read_example "far.csv" =
    RouteParsingError "Route parsing failed on line 4: 'far' is not an integer".
Proof.
  apply (parse_routes_not_integer int_example read_example "far.csv" file_abc []
           {| line_num := 4; fields := ["C"; "D"; "far"]%string |} rows_abc
           "C" "D" "far" []).
  - reflexivity.
  - vm_compute. reflexivity.
  - by_compute.
  - reflexivity.
  - reflexivity.
  - discriminate.
Defined.

(** X15: when the records of a file load up to a record for an origin and a
    destination that an earlier record names in this order, [parse_routes]
    raises [RouteParsingError] with the line of the later record; the message
    has [Route parsing failed] twice and names the two stations, and the
    distances of the two records do not count. *)
Theorem parse_routes_duplicate (int : string → option Z)
    (read : string → read_failure + list csv_row) (path : string)
    (good rest : list csv_row) (bad : csv_row) (rs : list (string * string * Z))
    (o d text : string) (more : list string) (w : Z) :
  read path = inr (good ++ bad :: rest) →
  routes_of_rows int good = Some rs → NoDup rs.*1 →
  fields bad = o :: d :: text :: more → int text = Some w → (o, d) ∈ rs.*1 →
  line_num bad ≠ 0%nat →
  parse_routes int read path =
    RouteParsingError
      ("Route parsing failed on line " ++ pretty (line_num bad)
       ++ ": Route parsing failed: Route from " ++ o ++ " to " ++ d ++ " already exists.").
Proof.
  intros Hread Hrs Hnd Hf Hint Hin Hline.
  destruct (parse_routes_after int read path good (bad :: rest) rs Hread Hrs Hnd)
    as (sm & Hsm & Herr). apply Herr.
  rewrite parse_rows_cons, Hf, Hint.
  destruct (add_routes_returns rs _ _ Hsm) as (He & _).
  pose proof (built_wf _ (built_from _ _ Hsm)) as Hwf.
  apply list_elem_of_fmap in Hin as ([[o' d'] w'] & Heq & Hin). simpl in Heq.
  injection Heq as <- <-.
  assert (edge sm o d w') as (so & Hso & Hr) by (apply He; by right).
  assert (d ∈ dom (stations sm)) as [sd Hsd]%elem_of_dom.
  { by apply (wf_dests _ Hwf _ _ _ _ Hso Hr). }
  rewrite (add_route_dup o d w sm so sd Hso Hsd).
  - rewrite (wf_name _ Hwf _ _ Hso), (wf_name _ Hwf _ _ Hsd).
    by rewrite RouteParsingError_message_line.
  - apply list_elem_of_fmap. by exists (d, w').
Qed.

Lemma parse_routes_duplicate_witness :
  parse_routes int_example read_example "twice.csv" =
    RouteParsingError
      "Route parsing failed on line 4: Route parsing failed: Route from A to B already exists.".
Proof.
  apply (parse_routes_duplicate int_example read_example "twice.csv" file_abc []
           {| line_num := 4; fields := ["A"; "B"; "7"]%string |} rows_abc
           "A" "B" "7" [] 7).
  - reflexivity.
  - vm_compute. reflexivity.
  - by_compute.
  - reflexivity.
  - reflexivity.
  - by_compute.
  - discriminate.
Defined.
